(** * A shallow embedding of [src/db/sqlitedict.py]

    The development follows the structure of the Python module:
    - Python values used as keys and values ([pyval]), Python equality,
      [json.dumps] and the key normalizer [SqliteDict.__serialize_key];
    - the SQL values of the backing table, the binding of Python
      parameters by the [sqlite3] module and the few statements the store
      issues;
    - the worker thread [SqliteMultiThread.run] as a step function on an
      explicit state holding the request queue, the result channels, the
      pending exception and the table contents;
    - the caller-side methods of [SqliteMultiThread] ([check_raise_error],
      [execute], [executemany], [select_one], [commit], [close]) and the
      facade [SqliteDict], written in a small state and error monad. *)

From Stdlib Require Import List String Ascii ZArith Bool Lia Relations.
Import ListNotations.
Open Scope string_scope.
Set Warnings "-register-all".

(** ** Python values *)

Inductive pyval : Type :=
| PNone
| PBool (b : bool)
| PInt (z : Z)
| PStr (s : string)
| PBytes (b : string)
| PTuple (l : list pyval)
| PList (l : list pyval)
| PFrozenset (l : list pyval)   (* elements in iteration order *)
| PSet (l : list pyval)         (* elements in iteration order *)
| PDict (l : list (pyval * pyval)).  (* items in insertion order *)

(** Python's [==] on these values: [True == 1], a [set] equals a
    [frozenset] with the same elements, dicts compare as sets of items. *)
Fixpoint py_eq (a b : pyval) {struct a} : bool :=
  let fix eq_list (l1 l2 : list pyval) : bool :=
    match l1, l2 with
    | [], [] => true
    | x :: xs, y :: ys => py_eq x y && eq_list xs ys
    | _, _ => false
    end in
  let fix sub_set (l1 l2 : list pyval) : bool :=
    match l1 with
    | [] => true
    | x :: xs => existsb (py_eq x) l2 && sub_set xs l2
    end in
  let fix sub_set_rev (l1 l2 : list pyval) : bool :=
    match l2 with
    | [] => true
    | y :: ys => existsb (fun x => py_eq x y) l1 && sub_set_rev l1 ys
    end in
  let fix sub_items (l1 : list (pyval * pyval)) (l2 : list (pyval * pyval)) : bool :=
    match l1 with
    | [] => true
    | (k, v) :: xs =>
        existsb (fun kv => py_eq k (fst kv) && py_eq v (snd kv)) l2 && sub_items xs l2
    end in
  match a, b with
  | PNone, PNone => true
  | PBool x, PBool y => Bool.eqb x y
  | PBool x, PInt z | PInt z, PBool x => Z.eqb z (if x then 1 else 0)
  | PInt x, PInt y => Z.eqb x y
  | PStr x, PStr y => String.eqb x y
  | PBytes x, PBytes y => String.eqb x y
  | PTuple l1, PTuple l2 => eq_list l1 l2
  | PList l1, PList l2 => eq_list l1 l2
  | (PFrozenset l1 | PSet l1), (PFrozenset l2 | PSet l2) =>
      sub_set l1 l2 && sub_set_rev l1 l2
  | PDict l1, PDict l2 => Nat.eqb (List.length l1) (List.length l2) && sub_items l1 l2
  | _, _ => false
  end.

(** ** [json.dumps] with its default options
    ([ensure_ascii=True], separators [", "] and [": "], no key sorting);
    [None] stands for the [TypeError] it raises on values it cannot
    serialize. *)

Definition dq : ascii := ascii_of_nat 34.
Definition bslash : ascii := ascii_of_nat 92.

(** [str(n)] for a Python int. *)
Fixpoint dec_digits (fuel : nat) (n : Z) (acc : string) : string :=
  match fuel with
  | O => acc
  | S f =>
      let acc' := String (ascii_of_nat (48 + Z.to_nat (Z.modulo n 10))) acc in
      if Z.eqb (Z.div n 10) 0 then acc' else dec_digits f (Z.div n 10) acc'
  end.

Definition z_to_dec (z : Z) : string :=
  if Z.ltb z 0
  then String "-" (dec_digits (Z.to_nat (Z.log2 (- z)) + 2) (- z) "")
  else dec_digits (Z.to_nat (Z.log2 z) + 2) z "".

Definition hex_digit (n : nat) : ascii :=
  if Nat.ltb n 10 then ascii_of_nat (48 + n) else ascii_of_nat (87 + n).

(** [ESCAPE_ASCII] and [ESCAPE_DCT] of [json.encoder]: quote, backslash and
    the short control escapes, every other character outside space..tilde
    as a four-digit lower-case hex escape. *)
Definition json_escape_char (c : ascii) : string :=
  let n := nat_of_ascii c in
  if Nat.eqb n 34 then String bslash (String dq "")
  else if Nat.eqb n 92 then String bslash (String bslash "")
  else if Nat.eqb n 10 then String bslash "n"
  else if Nat.eqb n 13 then String bslash "r"
  else if Nat.eqb n 9 then String bslash "t"
  else if Nat.eqb n 8 then String bslash "b"
  else if Nat.eqb n 12 then String bslash "f"
  else if Nat.leb 32 n && Nat.leb n 126 then String c ""
  else String bslash ("u00" ++ String (hex_digit (n / 16)) (String (hex_digit (n mod 16)) "")).

Fixpoint json_escape (s : string) : string :=
  match s with
  | EmptyString => ""
  | String c r => json_escape_char c ++ json_escape r
  end.

Definition json_quote (s : string) : string := String dq (json_escape s ++ String dq "").

Fixpoint join_with (sep : string) (l : list string) : string :=
  match l with
  | [] => ""
  | [x] => x
  | x :: r => x ++ sep ++ join_with sep r
  end.

Fixpoint all_some {A : Type} (l : list (option A)) : option (list A) :=
  match l with
  | [] => Some []
  | None :: _ => None
  | Some x :: r => match all_some r with Some xs => Some (x :: xs) | None => None end
  end.

(** Keys of a JSON object: [str] as is; [int], [bool] and [None] are turned
    into strings; any other key type is a [TypeError]. *)
Definition json_key (k : pyval) : option string :=
  match k with
  | PStr s => Some (json_quote s)
  | PInt z => Some (json_quote (z_to_dec z))
  | PBool true => Some (json_quote "true")
  | PBool false => Some (json_quote "false")
  | PNone => Some (json_quote "null")
  | _ => None
  end.

Fixpoint json_dumps (v : pyval) : option string :=
  match v with
  | PNone => Some "null"
  | PBool true => Some "true"
  | PBool false => Some "false"
  | PInt z => Some (z_to_dec z)
  | PStr s => Some (json_quote s)
  | PTuple l | PList l =>
      match all_some (map json_dumps l) with
      | Some xs => Some ("[" ++ join_with ", " xs ++ "]")
      | None => None
      end
  | PDict l =>
      match all_some (map (fun kv => match json_key (fst kv), json_dumps (snd kv) with
                                     | Some k, Some x => Some (k ++ ": " ++ x)
                                     | _, _ => None
                                     end) l) with
      | Some xs => Some ("{" ++ join_with ", " xs ++ "}")
      | None => None
      end
  | PBytes _ | PFrozenset _ | PSet _ => None
  end.

(** ** Exceptions and outcomes of a call *)

(** Errors of the [sqlite3] module, all subclasses of [sqlite3.Error]:
    an unsupported parameter type, a wrong number of bindings. *)
Inductive sqlerr : Type :=
| ErrBinding
| ErrParamCount.

Inductive exn : Type :=
| KeyError (k : pyval)
| RuntimeError (msg : string)
| TypeError
| AttributeError            (* a method called on [self.conn = None] *)
| Deferred (e : sqlerr).    (* re-raised by [check_raise_error] *)

(** [Hang]: the call never returns, it blocks forever on [res.get()]. *)
Inductive outcome (A : Type) : Type :=
| Ok (a : A)
| Raise (e : exn)
| Hang.
Arguments Ok {A} a.
Arguments Raise {A} e.
Arguments Hang {A}.

(** ** The key normalizer [SqliteDict.__serialize_key] *)

Definition of_json (r : option string) : outcome pyval :=
  match r with
  | Some s => Ok (PStr s)
  | None => Raise TypeError
  end.

Definition serialize_key (k : pyval) : outcome pyval :=
  match k with
  | PTuple l => of_json (json_dumps (PList l))
  | PFrozenset l => of_json (json_dumps (PList l))
  | PSet l => of_json (json_dumps (PList l))
  | PDict l => of_json (json_dumps (PDict l))
  | _ => Ok k
  end.

(** ** SQL values, parameter binding and the statements of the store *)

Inductive sqlval : Type :=
| SNull
| SInt (z : Z)
| SText (s : string)
| SBlob (b : string).

(** The Python value [sqlite3] returns for a column ([text_factory = str]). *)
Definition py_of_sql (v : sqlval) : pyval :=
  match v with
  | SNull => PNone
  | SInt z => PInt z
  | SText s => PStr s
  | SBlob b => PBytes b
  end.

Definition int64_ok (z : Z) : bool := (- 2 ^ 63 <=? z)%Z && (z <? 2 ^ 63)%Z.

(** Adapting one parameter: an int outside 64 bits raises [OverflowError],
    which is not an [sqlite3.Error]; other unsupported types raise
    [ProgrammingError]. *)
Inductive bind_one : Type :=
| Bound (v : sqlval)
| BindSqliteError
| BindOverflow.

Definition bind_param (v : pyval) : bind_one :=
  match v with
  | PNone => Bound SNull
  | PBool b => Bound (SInt (if b then 1 else 0))
  | PInt z => if int64_ok z then Bound (SInt z) else BindOverflow
  | PStr s => Bound (SText s)
  | PBytes b => Bound (SBlob b)
  | _ => BindSqliteError
  end.

Inductive bind_result : Type :=
| BoundAll (ps : list sqlval)
| BindFailed (e : sqlerr)
| BindRaised.

Fixpoint bind_each (l : list pyval) : bind_result :=
  match l with
  | [] => BoundAll []
  | v :: r =>
      match bind_param v with
      | BindOverflow => BindRaised
      | BindSqliteError => BindFailed ErrBinding
      | Bound x => match bind_each r with BoundAll xs => BoundAll (x :: xs) | e => e end
      end
  end.

(** [cursor.execute] first checks the number of bindings, then binds the
    parameters in order. *)
Definition bind_params (needed : nat) (l : list pyval) : bind_result :=
  if Nat.eqb (List.length l) needed then bind_each l else BindFailed ErrParamCount.

(** Column [key TEXT PRIMARY KEY]: an integer is stored and compared as its
    decimal text; [NULL] equals nothing (and a TEXT primary key accepts
    [NULL]). *)
Definition text_affinity (v : sqlval) : sqlval :=
  match v with
  | SInt z => SText (z_to_dec z)
  | _ => v
  end.

Definition sql_key_eq (col p : sqlval) : bool :=
  match text_affinity col, text_affinity p with
  | SText a, SText b => String.eqb a b
  | SBlob a, SBlob b => String.eqb a b
  | _, _ => false
  end.

(** A table: its rows [(key, value)] in rowid order. *)
Definition row : Type := (sqlval * sqlval)%type.
Definition table : Type := list row.

Inductive stmt : Type :=
| HAS_ITEM   (* SELECT 1 FROM t WHERE key = ? *)
| GET_ITEM   (* SELECT value FROM t WHERE key = ? *)
| ADD_ITEM   (* REPLACE INTO t (key, value) VALUES (?,?) *)
| DEL_ITEM   (* DELETE FROM t WHERE key = ? *)
| CLEAR_ALL  (* DELETE FROM t *)
| GET_LEN.   (* SELECT COUNT(star) FROM t *)

Definition stmt_arity (st : stmt) : nat :=
  match st with
  | HAS_ITEM | GET_ITEM | DEL_ITEM => 1
  | ADD_ITEM => 2
  | CLEAR_ALL | GET_LEN => 0
  end.

Definition matching (k : sqlval) (t : table) : table :=
  filter (fun r => sql_key_eq (fst r) k) t.

Definition without (k : sqlval) (t : table) : table :=
  filter (fun r => negb (sql_key_eq (fst r) k)) t.

(** The new table and the result rows of a statement with its bound
    parameters (their number has been checked). *)
Definition exec_stmt (st : stmt) (ps : list sqlval) (t : table) : table * list (list sqlval) :=
  match st, ps with
  | HAS_ITEM, [k] => (t, map (fun _ => [SInt 1]) (matching k t))
  | GET_ITEM, [k] => (t, map (fun r => [snd r]) (matching k t))
  | ADD_ITEM, [k; v] => ((without k t ++ [(text_affinity k, v)])%list, [])
  | DEL_ITEM, [k] => (without k t, [])
  | CLEAR_ALL, [] => ([], [])
  | GET_LEN, [] => (t, [[SInt (Z.of_nat (List.length t))]])
  | _, _ => (t, [])
  end.

(** ** The worker thread [SqliteMultiThread.run] *)

Inductive request : Type :=
| RSql (st : stmt)
| RCommit   (* ResourcesOfQueue.COMMIT *)
| RClose.   (* ResourcesOfQueue.CLOSE *)

(** A queue entry [(req, arg, res, outer_stack)]; the stack snapshot only
    feeds the log and is left out. [cres] names the result channel. *)
Record cmd : Type := mkcmd {
  creq : request;
  carg : list pyval;
  cres : option nat
}.

(** What a result channel carries: rows, then [NO_MORE]. *)
Inductive msg : Type :=
| MRow (r : list sqlval)
| MNoMore.

Record wstate : Type := mkW {
  reqs : list cmd;                 (* self.reqs *)
  exc : option sqlerr;             (* self.exception *)
  db : table;                      (* the table as the connection sees it *)
  durable : table;                 (* the committed table in the file *)
  chans : list (nat * list msg);   (* the callers' result queues *)
  next_ch : nat;                   (* a fresh name for the next Queue() *)
  alive : bool;                    (* run() is still looping *)
  w_autocommit : bool              (* self.autocommit *)
}.

Definition set_reqs (q : list cmd) (s : wstate) : wstate :=
  mkW q (exc s) (db s) (durable s) (chans s) (next_ch s) (alive s) (w_autocommit s).
Definition set_exc (e : option sqlerr) (s : wstate) : wstate :=
  mkW (reqs s) e (db s) (durable s) (chans s) (next_ch s) (alive s) (w_autocommit s).
Definition set_db (t : table) (s : wstate) : wstate :=
  mkW (reqs s) (exc s) t (durable s) (chans s) (next_ch s) (alive s) (w_autocommit s).
Definition set_durable (t : table) (s : wstate) : wstate :=
  mkW (reqs s) (exc s) (db s) t (chans s) (next_ch s) (alive s) (w_autocommit s).
Definition set_chans (c : list (nat * list msg)) (s : wstate) : wstate :=
  mkW (reqs s) (exc s) (db s) (durable s) c (next_ch s) (alive s) (w_autocommit s).
Definition set_alive (b : bool) (s : wstate) : wstate :=
  mkW (reqs s) (exc s) (db s) (durable s) (chans s) (next_ch s) b (w_autocommit s).

(** [res.put(m)] *)
Fixpoint chan_put (ch : nat) (m : msg) (c : list (nat * list msg)) : list (nat * list msg) :=
  match c with
  | [] => []
  | (n, ms) :: r => if Nat.eqb n ch then (n, (ms ++ [m])%list) :: r else (n, ms) :: chan_put ch m r
  end.

Definition put (ch : nat) (m : msg) (s : wstate) : wstate := set_chans (chan_put ch m (chans s)) s.

(** [if res: for rec in cursor: res.put(rec); res.put(NO_MORE)] *)
Definition reply (res : option nat) (rows : list (list sqlval)) (s : wstate) : wstate :=
  match res with
  | None => s
  | Some ch => put ch MNoMore (fold_left (fun s r => put ch (MRow r) s) rows s)
  end.

(** [if self.autocommit: conn.commit()] *)
Definition autocommit_commit (s : wstate) : wstate :=
  if w_autocommit s then set_durable (db s) s else s.

(** One iteration of the [while True] loop of [run]. A dead worker (the loop
    was left by [break] or by an exception escaping [run]) does nothing. *)
Definition worker_step (s : wstate) : wstate :=
  if negb (alive s) then s else
  match reqs s with
  | [] => s
  | c :: rest =>
      let s := set_reqs rest s in
      match creq c with
      | RClose =>
          match cres c with
          | None => set_alive false s   (* the assert fails: AssertionError leaves run *)
          | Some ch =>
              (* break; conn.close() drops the open transaction; res.put(NO_MORE) *)
              put ch MNoMore (set_db (durable s) (set_alive false s))
          end
      | RCommit =>
          let s := set_durable (db s) s in
          match cres c with
          | Some ch => put ch MNoMore s
          | None => s
          end
      | RSql st =>
          match bind_params (stmt_arity st) (carg c) with
          | BindRaised =>
              (* OverflowError is not caught by [except sqlite3.Error]: it
                 escapes run() and the thread ends *)
              set_alive false s
          | BindFailed e =>
              autocommit_commit (reply (cres c) [] (set_exc (Some e) s))
          | BoundAll ps =>
              let '(t', rows) := exec_stmt st ps (db s) in
              autocommit_commit (reply (cres c) rows (set_db t' s))
          end
      end
  end.

Fixpoint run_worker (n : nat) (s : wstate) : wstate :=
  match n with
  | O => s
  | S n' => run_worker n' (worker_step s)
  end.

(** The worker processes everything queued so far. *)
Definition drain (s : wstate) : wstate := run_worker (List.length (reqs s)) s.

(** A connection just opened on a file holding [t]. *)
Definition new_conn (t : table) (autocommit : bool) : wstate :=
  mkW [] None t t [] 0 true autocommit.

(** ** A state and exception monad for the calling threads *)

Definition ST (S A : Type) : Type := S -> outcome A * S.

Definition ret {S A : Type} (a : A) : ST S A := fun s => (Ok a, s).
Definition throw {S A : Type} (e : exn) : ST S A := fun s => (Raise e, s).
Definition bind {S A B : Type} (m : ST S A) (f : A -> ST S B) : ST S B :=
  fun s =>
    match m s with
    | (Ok a, s') => f a s'
    | (Raise e, s') => (Raise e, s')
    | (Hang, s') => (Hang, s')
    end.
Definition lift {S A : Type} (r : outcome A) : ST S A := fun s => (r, s).

Notation "x <- m ;; k" := (bind m (fun x => k))
  (at level 61, m at next level, right associativity).
Notation "m ;;; k" := (bind m (fun _ => k))
  (at level 61, right associativity).

(** ** The calling side of [SqliteMultiThread]

    The worker runs concurrently with the callers; within one caller's
    call it is scheduled at the latest possible moment: when the caller
    blocks on [res.get()] ([wait_worker]), it processes the whole queue. *)

Definition M (A : Type) : Type := ST wstate A.

Definition check_raise_error : M unit :=
  fun s =>
    match exc s with
    | Some e => (Raise (Deferred e), set_exc None s)
    | None => (Ok tt, s)
    end.

(** [self.reqs.put(...)] *)
Definition enqueue (c : cmd) : M unit :=
  fun s => (Ok tt, set_reqs (reqs s ++ [c])%list s).

Definition execute (req : request) (arg : list pyval) (res : option nat) : M unit :=
  check_raise_error ;;; enqueue (mkcmd req arg res).

Fixpoint execute_each (req : request) (items : list (list pyval)) : M unit :=
  match items with
  | [] => ret tt
  | item :: r => execute req item None ;;; execute_each req r
  end.

Definition executemany (req : request) (items : list (list pyval)) : M unit :=
  execute_each req items ;;; check_raise_error.

(** [res = Queue()] *)
Definition new_queue : M nat :=
  fun s =>
    (Ok (next_ch s),
     mkW (reqs s) (exc s) (db s) (durable s) ((next_ch s, []) :: chans s)
         (S (next_ch s)) (alive s) (w_autocommit s)).

(** The worker runs off the whole queue while the caller waits: the one
    schedule this sequential model follows. Properties that depend on how
    caller and worker steps interleave are stated on the concurrent system
    [sys] below, whose reachable states cover every schedule. *)
Definition wait_worker : M unit := fun s => (Ok tt, drain s).

Fixpoint chan_take (ch : nat) (c : list (nat * list msg)) : option (msg * list (nat * list msg)) :=
  match c with
  | [] => None
  | (n, ms) :: r =>
      if Nat.eqb n ch then
        match ms with
        | [] => None
        | m :: ms' => Some (m, (n, ms') :: r)
        end
      else match chan_take ch r with
           | Some (m, r') => Some (m, (n, ms) :: r')
           | None => None
           end
  end.

(** [res.get()]: blocks forever when nothing will ever be put. *)
Definition res_get (ch : nat) : M msg :=
  fun s =>
    match chan_take ch (chans s) with
    | Some (m, c) => (Ok m, set_chans c s)
    | None => (Hang, s)
    end.

(** [select_one]: the first step of the generator [select], i.e.
    [execute] with a fresh result queue, [res.get()], [check_raise_error()],
    then the row, or [None] on [NO_MORE] ([StopIteration]). *)
Definition select_one (req : request) (arg : list pyval) : M (option (list sqlval)) :=
  ch <- new_queue ;;
  execute req arg (Some ch) ;;;
  wait_worker ;;;
  rec <- res_get ch ;;
  check_raise_error ;;;
  ret (match rec with MNoMore => None | MRow r => Some r end).

Definition commit (blocking : bool) : M unit :=
  if blocking then select_one RCommit [] ;;; ret tt
  else execute RCommit [] None.

(** [self.join()] *)
Definition join : M unit := fun s => if alive s then (Hang, s) else (Ok tt, s).

Definition close (force : bool) : M unit :=
  if force then ch <- new_queue ;; enqueue (mkcmd RClose [] (Some ch))
  else select_one RClose [] ;;; join.

(** ** The facade [SqliteDict] *)

Inductive flag_t : Type := Flag_c | Flag_r | Flag_w | Flag_n.

Record sdict : Type := mkD {
  flag : flag_t;
  s_autocommit : bool;
  encode : pyval -> pyval;   (* the pluggable codec *)
  decode : pyval -> pyval;
  conn : option wstate;      (* self.conn *)
  file : table               (* the table in the file while no connection is open *)
}.

Definition FM (A : Type) : Type := ST sdict A.

Definition set_conn (c : option wstate) (d : sdict) : sdict :=
  mkD (flag d) (s_autocommit d) (encode d) (decode d) c (file d).

Definition get_dict : FM sdict := fun d => (Ok d, d).

(** [self.conn.m(...)]; [self.conn] being [None] raises [AttributeError]. *)
Definition on_conn {A : Type} (m : M A) : FM A :=
  fun d =>
    match conn d with
    | None => (Raise AttributeError, d)
    | Some w => let '(r, w') := m w in (r, set_conn (Some w') d)
    end.

Definition read_only (d : sdict) : bool :=
  match flag d with Flag_r => true | _ => false end.

Definition refuse_if_ro (msg : string) : FM unit :=
  fun d => if read_only d then (Raise (RuntimeError msg), d) else (Ok tt, d).

Definition sd_commit (blocking : bool) : FM unit :=
  fun d =>
    match conn d with
    | None => (Ok tt, d)
    | Some _ => on_conn (commit blocking) d
    end.

Definition when_autocommit : FM unit :=
  fun d => if s_autocommit d then sd_commit true d else (Ok tt, d).

Definition contains (key : pyval) : FM bool :=
  k <- lift (serialize_key key) ;;
  r <- on_conn (select_one (RSql HAS_ITEM) [k]) ;;
  ret (match r with Some _ => true | None => false end).

Definition getitem (key : pyval) : FM pyval :=
  k <- lift (serialize_key key) ;;
  item <- on_conn (select_one (RSql GET_ITEM) [k]) ;;
  d <- get_dict ;;
  match item with
  | None => throw (KeyError k)
  | Some r => ret (decode d (py_of_sql (hd SNull r)))
  end.

Definition setitem (key value : pyval) : FM unit :=
  k <- lift (serialize_key key) ;;
  refuse_if_ro "Refusing to write to read-only SqliteDict" ;;;
  d <- get_dict ;;
  on_conn (execute (RSql ADD_ITEM) [k; encode d value] None) ;;;
  when_autocommit.

Definition delitem (key : pyval) : FM unit :=
  k <- lift (serialize_key key) ;;
  refuse_if_ro "Refusing to delete from read-only SqliteDict" ;;;
  present <- contains k ;;
  (if present then ret tt else throw (KeyError k)) ;;;
  on_conn (execute (RSql DEL_ITEM) [k] None) ;;;
  when_autocommit.

(** [update(items)] for a mapping or a list of pairs, given as its items in
    iteration order (the [**kwds] recursion is left out). *)
Definition update (items : list (pyval * pyval)) : FM unit :=
  refuse_if_ro "Refusing to update read-only SqliteDict" ;;;
  d <- get_dict ;;
  on_conn (executemany (RSql ADD_ITEM) (map (fun kv => [fst kv; encode d (snd kv)]) items)) ;;;
  when_autocommit.

Definition clear : FM unit :=
  refuse_if_ro "Refusing to clear read-only SqliteDict" ;;;
  on_conn (commit true) ;;;
  on_conn (execute (RSql CLEAR_ALL) [] None) ;;;
  on_conn (commit true).

(** [self.conn = None]; the file keeps what the worker leaves committed
    (after a forced close the daemon thread may still work off the queue). *)
Definition drop_conn : FM unit :=
  fun d =>
    match conn d with
    | None => (Ok tt, d)
    | Some w => (Ok tt, mkD (flag d) (s_autocommit d) (encode d) (decode d) None (durable (drain w)))
    end.

Definition sd_close (force : bool) : FM unit :=
  fun d =>
    match conn d with
    | None => (Ok tt, d)
    | Some w =>
        ((if w_autocommit w && negb force then on_conn (commit true) else ret tt) ;;;
         on_conn (close force) ;;;
         drop_conn) d
    end.

(** [__enter__]: a closed store gets a new connection. *)
Definition enter : FM unit :=
  fun d =>
    match conn d with
    | None => (Ok tt, set_conn (Some (new_conn (file d) (s_autocommit d))) d)
    | Some _ => (Ok tt, d)
    end.

(** [SqliteDict(filename, tablename, flag, autocommit, ...)] on a file whose
    table holds [t]: flag [n] erases the file first; the table exists (the
    create-if-absent statement is left out); its commit; flag [w] clears. *)
Definition open_dict (fl : flag_t) (autocommit : bool) (enc dec : pyval -> pyval) (t : table)
  : outcome unit * sdict :=
  let t0 := match fl with Flag_n => [] | _ => t end in
  (on_conn (commit true) ;;;
   match fl with Flag_w => clear | _ => ret tt end)
    (mkD fl autocommit enc dec (Some (new_conn t0 autocommit)) t0).

(** [len(d)]: [select_one(GET_LEN)[0]], [0] if it is [None]. *)
Definition sd_len : FM pyval :=
  r <- on_conn (select_one (RSql GET_LEN) []) ;;
  match r with
  | None => throw TypeError
  | Some row =>
      match py_of_sql (hd SNull row) with
      | PNone => ret (PInt 0)
      | x => ret x
      end
  end.

(** [get(key, default=None)], which [SqliteDict] inherits from
    [UserDict]. Up to Python 3.11 it is [Mapping.get]:
    [try: return self[key] except KeyError: return default]. *)
Definition mapping_get (key default : pyval) : FM pyval :=
  fun d =>
    match getitem key d with
    | (Raise (KeyError _), d') => (Ok default, d')
    | r => r
    end.

(** From Python 3.12 [UserDict] defines its own [get]:
    [if key in self: return self[key]; return default]. *)
Definition userdict_get (key default : pyval) : FM pyval :=
  present <- contains key ;;
  if present then getitem key else ret default.

(** ** Claim-level definitions *)

(** The key types [__serialize_key] rewrites. *)
Definition is_composite (k : pyval) : bool :=
  match k with
  | PTuple _ | PFrozenset _ | PSet _ | PDict _ => true
  | _ => false
  end.

(** A connection whose worker is running, has nothing queued and no
    pending exception. *)
Definition idle (w : wstate) : Prop :=
  alive w = true /\ reqs w = [] /\ exc w = None.

(** The identity codec, and a fresh store of flag [c] on an empty file. *)
Definition id_codec (v : pyval) : pyval := v.
Definition fresh_store : sdict := snd (open_dict Flag_c false id_codec id_codec []).
Definition fresh_conn : wstate :=
  match conn fresh_store with Some w => w | None => new_conn [] false end.
Definition ro_store : sdict := snd (open_dict Flag_r false id_codec id_codec []).

(** A store of flag [c], without autocommit, whose table holds ["a" -> 1]. *)
Definition store_with_a : sdict :=
  mkD Flag_c false id_codec id_codec (Some (new_conn [(SText "a", SInt 1)] false)) [(SText "a", SInt 1)].

(** A queued command that records a Deferred Failure when the worker
    executes it: a statement whose parameters [cursor.execute] rejects with
    an [sqlite3.Error]. *)
Definition fails_on_worker (c : cmd) : bool :=
  match creq c with
  | RSql st =>
      match bind_params (stmt_arity st) (carg c) with
      | BindFailed _ => true
      | _ => false
      end
  | _ => false
  end.

(** ** The store as a concurrent system

    The calling threads and the worker share the connection state. A caller
    step is one of the primitive actions of the calling side on the shared
    state; the steps of all calling threads are interleaved in any order
    with the steps of the worker. Two ghost logs record the commands in the
    order they were put on the queue and in the order the worker took them. *)
Inductive caller_op : Type :=
| OpEnqueue (c : cmd)   (* [self.reqs.put(...)], in [execute] and [close(force=True)] *)
| OpCheck               (* [check_raise_error()] *)
| OpNewQueue            (* [res = Queue()] *)
| OpGet (ch : nat).     (* [res.get()] *)

Definition caller_run (op : caller_op) : M unit :=
  match op with
  | OpEnqueue c => enqueue c
  | OpCheck => check_raise_error
  | OpNewQueue => new_queue ;;; ret tt
  | OpGet ch => res_get ch ;;; ret tt
  end.

Record sys : Type := mkSys {
  sys_w : wstate;
  enq_log : list cmd;   (* commands in the order they were enqueued *)
  applied : list cmd    (* commands in the order the worker took them *)
}.

Inductive sys_step : sys -> sys -> Prop :=
| StepCaller op s :
    sys_step s (mkSys (snd (caller_run op (sys_w s)))
                      (match op with OpEnqueue c => (enq_log s ++ [c])%list | _ => enq_log s end)
                      (applied s))
| StepWorker c rest s :
    alive (sys_w s) = true -> reqs (sys_w s) = c :: rest ->
    sys_step s (mkSys (worker_step (sys_w s)) (enq_log s) (applied s ++ [c])%list).

(** States reachable from the connection [w0], whose queue is empty. *)
Inductive reachable (w0 : wstate) : sys -> Prop :=
| reach_init : reqs w0 = [] -> reachable w0 (mkSys w0 [] [])
| reach_step s s' : reachable w0 s -> sys_step s s' -> reachable w0 s'.

(** The part of the state the worker's steps determine: whether it runs,
    the table, the committed table and the autocommit mode. *)
Definition core (w : wstate) : bool * table * table * bool :=
  (alive w, db w, durable w, w_autocommit w).

(** The worker taking the commands [cs] from [w] one after the other. *)
Definition apply_log (cs : list cmd) (w : wstate) : wstate :=
  fold_left (fun s c => worker_step (set_reqs [c] s)) cs w.

(** A command that leaves the rows of the key [p] as they are: a query, a
    commit, a statement whose binding fails, a REPLACE or DELETE of a key the
    key column tells apart from [p]. *)
Definition keeps_key (p : sqlval) (c : cmd) : bool :=
  match creq c with
  | RSql st =>
      match bind_params (stmt_arity st) (carg c) with
      | BoundAll ps =>
          match st, ps with
          | ADD_ITEM, [k; _] | DEL_ITEM, [k] => negb (sql_key_eq k p)
          | CLEAR_ALL, _ => false
          | _, _ => true
          end
      | _ => true
      end
  | RCommit => true
  | RClose => false
  end.

(** A write and a point query of the key ["a"]. *)
Definition c_write : cmd := mkcmd (RSql ADD_ITEM) [PStr "a"; PInt 1] None.
Definition c_read : cmd := mkcmd (RSql GET_ITEM) [PStr "a"] (Some 0).

(** The keys of a table are pairwise distinct as the key column compares them. *)
Definition keys_unique (t : table) : Prop := forall k, List.length (matching k t) <= 1.

(** ** General lemmas *)

Lemma sql_key_eq_affinity p : p <> SNull -> sql_key_eq (text_affinity p) p = true.
Proof.
  intro H; destruct p; simpl; try congruence; apply String.eqb_refl.
Qed.

Lemma matching_without p t : matching p (without p t) = [].
Proof.
  induction t as [|r t IH]; simpl; [reflexivity|].
  destruct (sql_key_eq (fst r) p) eqn:E; simpl; [exact IH|].
  rewrite E; exact IH.
Qed.

Lemma matching_app p t1 t2 : matching p (t1 ++ t2)%list = (matching p t1 ++ matching p t2)%list.
Proof. unfold matching; apply filter_app. Qed.

Lemma sql_key_eq_sym a b : sql_key_eq a b = sql_key_eq b a.
Proof.
  unfold sql_key_eq; destruct (text_affinity a), (text_affinity b); try reflexivity; apply String.eqb_sym.
Qed.

Lemma sql_key_eq_trans a b c : sql_key_eq a b = true -> sql_key_eq b c = true -> sql_key_eq a c = true.
Proof.
  unfold sql_key_eq; destruct (text_affinity a), (text_affinity b), (text_affinity c); try discriminate;
    rewrite !String.eqb_eq; congruence.
Qed.

Lemma text_affinity_idem a : text_affinity (text_affinity a) = text_affinity a.
Proof. destruct a; reflexivity. Qed.

Lemma sql_key_eq_aff_l a b : sql_key_eq (text_affinity a) b = sql_key_eq a b.
Proof. unfold sql_key_eq; rewrite text_affinity_idem; reflexivity. Qed.

Lemma set_chans_eta s : set_chans (chans s) s = s.
Proof. destruct s; reflexivity. Qed.

Lemma set_chans_twice c1 c2 s : set_chans c1 (set_chans c2 s) = set_chans c1 s.
Proof. destruct s; reflexivity. Qed.

Lemma chan_put_head ch m ms c : chan_put ch m ((ch, ms) :: c) = (ch, (ms ++ [m])%list) :: c.
Proof. simpl; rewrite Nat.eqb_refl; reflexivity. Qed.

(** The worker's rows land, in order, in the caller's channel. *)
Lemma fold_put_head ch rows : forall s ms c,
  chans s = (ch, ms) :: c ->
  fold_left (fun s r => put ch (MRow r) s) rows s
  = set_chans ((ch, (ms ++ map MRow rows)%list) :: c) s.
Proof.
  induction rows as [|r rows IH]; intros s ms c Hs; simpl.
  - rewrite app_nil_r, <- Hs; symmetry; apply set_chans_eta.
  - unfold put at 2; rewrite Hs, chan_put_head.
    rewrite (IH _ (ms ++ [MRow r])%list c) by reflexivity.
    rewrite set_chans_twice, <- app_assoc; reflexivity.
Qed.

Lemma reply_head ch rows s ms c :
  chans s = (ch, ms) :: c ->
  reply (Some ch) rows s = set_chans ((ch, (ms ++ map MRow rows ++ [MNoMore])%list) :: c) s.
Proof.
  intro Hs; unfold reply; rewrite (fold_put_head ch rows s ms c Hs).
  unfold put; simpl; rewrite Nat.eqb_refl, <- app_assoc; reflexivity.
Qed.

Lemma chan_take_rows ch rows c :
  chan_take ch ((ch, (map MRow rows ++ [MNoMore])%list) :: c)
  = Some (match rows with [] => MNoMore | r :: _ => MRow r end,
          (ch, match rows with [] => [] | _ :: rs => (map MRow rs ++ [MNoMore])%list end) :: c).
Proof. simpl; rewrite Nat.eqb_refl; destruct rows; reflexivity. Qed.

(** A point query on an idle connection: the caller gets the first result
    row, the connection is idle again. *)
Lemma select_one_idle w st args ps :
  idle w -> bind_params (stmt_arity st) args = BoundAll ps ->
  let '(r, w') := select_one (RSql st) args w in
  r = Ok (hd_error (snd (exec_stmt st ps (db w)))) /\ idle w' /\
  db w' = fst (exec_stmt st ps (db w)) /\
  durable w' = (if w_autocommit w then fst (exec_stmt st ps (db w)) else durable w) /\
  w_autocommit w' = w_autocommit w.
Proof.
  intros [Ha [Hr He]] Hb.
  destruct w as [rq ex t du ch nc al ac]; simpl in Ha, Hr, He |- *; subst rq ex al.
  unfold select_one, bind, new_queue, execute, check_raise_error, enqueue, wait_worker, drain; simpl.
  unfold worker_step; simpl. rewrite Hb.
  destruct (exec_stmt st ps t) as [t' rows]; simpl.
  rewrite (fold_put_head nc rows _ [] ch) by reflexivity.
  unfold put, res_get, autocommit_commit; destruct ac; simpl; rewrite !Nat.eqb_refl;
    destruct rows; simpl; rewrite ?Nat.eqb_refl; simpl; unfold ret, idle; simpl; repeat split.
Qed.

(** The worker works off a pending fire-and-forget statement before it
    reaches a point query queued after it. *)
Lemma select_one_after_ff w c st1 ps1 req arg :
  alive w = true -> exc w = None -> reqs w = [c] ->
  creq c = RSql st1 -> cres c = None ->
  bind_params (stmt_arity st1) (carg c) = BoundAll ps1 ->
  select_one req arg w
  = select_one req arg (autocommit_commit (set_db (fst (exec_stmt st1 ps1 (db w))) (set_reqs [] w))).
Proof.
  intros Ha He Hr Hq Hres Hb.
  destruct w as [rq ex t du ch nc al ac]; destruct c as [cq ca cr]; simpl in *; subst.
  unfold select_one, bind, new_queue, execute, check_raise_error, enqueue, wait_worker, drain; simpl.
  unfold worker_step at 2; simpl; rewrite Hb.
  destruct (exec_stmt st1 ps1 t) as [t1 rows1]; destruct ac; reflexivity.
Qed.

Lemma bind_ok {S A B : Type} (m : ST S A) (f : A -> ST S B) s a s' :
  m s = (Ok a, s') -> bind m f s = f a s'.
Proof. intro H; unfold bind; rewrite H; reflexivity. Qed.

Lemma bind_raise {S A B : Type} (m : ST S A) (f : A -> ST S B) s e s' :
  m s = (Raise e, s') -> bind m f s = (Raise e, s').
Proof. intro H; unfold bind; rewrite H; reflexivity. Qed.

Lemma bind_hang {S A B : Type} (m : ST S A) (f : A -> ST S B) s s' :
  m s = (Hang, s') -> bind m f s = (Hang, s').
Proof. intro H; unfold bind; rewrite H; reflexivity. Qed.

Lemma bind_fst_hang {S A B : Type} (m : ST S A) (f : A -> ST S B) s :
  fst (m s) = Hang -> fst (bind m f s) = Hang.
Proof. intro H; unfold bind; destruct (m s) as [[a|e|] s']; simpl in *; congruence. Qed.

Lemma check_ok w : exc w = None -> check_raise_error w = (Ok tt, w).
Proof. intro H; unfold check_raise_error; rewrite H; reflexivity. Qed.

Lemma execute_ok w req arg res :
  exc w = None -> execute req arg res w = (Ok tt, set_reqs (reqs w ++ [mkcmd req arg res])%list w).
Proof. intro H; unfold execute; rewrite (bind_ok _ _ _ tt w (check_ok w H)); reflexivity. Qed.

Lemma on_conn_some {A : Type} (m : M A) d w :
  conn d = Some w -> on_conn m d = (fst (m w), set_conn (Some (snd (m w))) d).
Proof. intro H; unfold on_conn; rewrite H; destruct (m w); reflexivity. Qed.

(** A blocking commit on an idle connection makes the table durable. *)
Lemma select_one_commit_idle w :
  idle w ->
  let '(r, w') := select_one RCommit [] w in
  r = Ok None /\ idle w' /\ db w' = db w /\ durable w' = db w /\ w_autocommit w' = w_autocommit w.
Proof.
  intros [Ha [Hr He]].
  destruct w as [rq ex t du ch nc al ac]; simpl in Ha, Hr, He |- *; subst rq ex al.
  unfold select_one, bind, new_queue, execute, check_raise_error, enqueue, wait_worker, drain; simpl.
  unfold worker_step, put, res_get; simpl; rewrite !Nat.eqb_refl; simpl; rewrite ?Nat.eqb_refl; simpl.
  unfold ret, idle; simpl; repeat split.
Qed.

Lemma bind_params_pair k v p q :
  bind_param k = Bound p -> bind_param v = Bound q -> bind_params 2 [k; v] = BoundAll [p; q].
Proof. intros Hp Hq; unfold bind_params; simpl; rewrite Hp, Hq; reflexivity. Qed.

Lemma bind_params_one k p : bind_param k = Bound p -> bind_params 1 [k] = BoundAll [p].
Proof. intros Hp; unfold bind_params; simpl; rewrite Hp; reflexivity. Qed.

(** After [REPLACE INTO] with a non-NULL key, the point query finds exactly
    the new row. *)
Lemma matching_after_replace p q t :
  p <> SNull -> matching p ((without p t ++ [(text_affinity p, q)])%list) = [(text_affinity p, q)].
Proof.
  intro Hn; rewrite matching_app, matching_without; simpl.
  unfold matching; simpl; rewrite (sql_key_eq_affinity p Hn); reflexivity.
Qed.

(** The point query of [__getitem__] after a [REPLACE] of the same non-NULL
    key, with the [REPLACE] either still queued or already worked off. *)
Lemma get_after_replace w k p enc_v q :
  alive w = true -> exc w = None ->
  bind_param k = Bound p -> p <> SNull -> bind_param enc_v = Bound q ->
  (reqs w = [mkcmd (RSql ADD_ITEM) [k; enc_v] None] \/
   (reqs w = [] /\ exists t0, db w = (without p t0 ++ [(text_affinity p, q)])%list)) ->
  fst (select_one (RSql GET_ITEM) [k] w) = Ok (Some [q]).
Proof.
  intros Ha He Hp Hn Hq Hr.
  assert (Hb1 : bind_params (stmt_arity GET_ITEM) [k] = BoundAll [p]) by (apply bind_params_one; exact Hp).
  destruct Hr as [Hr | [Hr [t0 Ht]]].
  - rewrite (select_one_after_ff w _ ADD_ITEM [p; q] _ _ Ha He Hr eq_refl eq_refl
               (bind_params_pair _ _ _ _ Hp Hq)).
    set (w2 := autocommit_commit (set_db (fst (exec_stmt ADD_ITEM [p; q] (db w))) (set_reqs [] w))).
    assert (Hi : idle w2).
    { unfold w2, autocommit_commit, idle; simpl; destruct (w_autocommit w); simpl; auto. }
    pose proof (select_one_idle w2 GET_ITEM [k] [p] Hi Hb1) as H.
    destruct (select_one (RSql GET_ITEM) [k] w2) as [r w'].
    destruct H as [H _]; rewrite H; simpl.
    assert (Hd : db w2 = (without p (db w) ++ [(text_affinity p, q)])%list)
      by (unfold w2, autocommit_commit; simpl; destruct (w_autocommit w); reflexivity).
    rewrite Hd, (matching_after_replace p q _ Hn); reflexivity.
  - assert (Hi : idle w) by (repeat split; assumption).
    pose proof (select_one_idle w GET_ITEM [k] [p] Hi Hb1) as H.
    destruct (select_one (RSql GET_ITEM) [k] w) as [r w'].
    destruct H as [H _]; rewrite H; simpl.
    rewrite Ht, (matching_after_replace p q _ Hn); reflexivity.
Qed.

(** ** C2: [set(k, v)] then [get(k)] *)

(** C2 (counterexample): the key [None] passes the normalizer unchanged and
    is stored as a [NULL] key (a TEXT primary key accepts [NULL]), but the
    point query [key = NULL] matches no row: on a fresh store with the
    identity codec, [d[None] = 1] succeeds and [d[None]] raises [KeyError]. *)
Lemma C2_none_key_lost :
  let '(r1, d1) := setitem PNone (PInt 1) fresh_store in
  r1 = Ok tt /\ fst (getitem PNone d1) = Raise (KeyError PNone).
Proof. vm_compute; split; reflexivity. Qed.

(** C2 (amended): on a writable store with an idle connection, for every key
    whose normalized form binds to a non-NULL SQL value, and every value [v]
    whose encoding binds to a value that [decode] maps back to [v], [set(k, v)]
    returns normally and the following [get(k)] returns [v], with or without
    autocommit. *)
Theorem C2_set_then_get d w key k v p q :
  conn d = Some w -> idle w -> read_only d = false ->
  serialize_key key = Ok k -> bind_param k = Bound p -> p <> SNull ->
  bind_param (encode d v) = Bound q -> decode d (py_of_sql q) = v ->
  let '(r1, d1) := setitem key v d in r1 = Ok tt /\ fst (getitem key d1) = Ok v.
Proof.
  intros Hc Hi Hro Hk Hp Hn Hq Hdec.
  pose proof Hi as [Ha [Hr He]].
  set (w1 := set_reqs (reqs w ++ [mkcmd (RSql ADD_ITEM) [k; encode d v] None])%list w).
  assert (Hset : setitem key v d = when_autocommit (set_conn (Some w1) d)).
  { unfold setitem.
    rewrite (bind_ok _ _ d k d) by (unfold lift; rewrite Hk; reflexivity).
    rewrite (bind_ok _ _ d tt d) by (unfold refuse_if_ro; rewrite Hro; reflexivity).
    rewrite (bind_ok _ _ d d d) by reflexivity.
    rewrite (bind_ok _ _ d tt (set_conn (Some w1) d)); [reflexivity|].
    rewrite (on_conn_some _ d w Hc), execute_ok by exact He; reflexivity. }
  rewrite Hset.
  assert (Hw1r : reqs w1 = [mkcmd (RSql ADD_ITEM) [k; encode d v] None]) by (unfold w1; simpl; rewrite Hr; reflexivity).
  (* [getitem] on a store whose connection answers the point query with [q] *)
  assert (Hget : forall d2 w2, conn d2 = Some w2 -> decode d2 = decode d ->
            fst (select_one (RSql GET_ITEM) [k] w2) = Ok (Some [q]) ->
            fst (getitem key d2) = Ok v).
  { intros d2 w2 Hc2 Hdd Hs. unfold getitem.
    rewrite (bind_ok _ _ d2 k d2) by (unfold lift; rewrite Hk; reflexivity).
    unfold bind at 1; rewrite (on_conn_some _ d2 w2 Hc2), Hs.
    unfold bind, get_dict, ret; simpl; rewrite Hdd, Hdec; reflexivity. }
  unfold when_autocommit; simpl; destruct (s_autocommit d) eqn:Hac.
  - (* autocommit: the blocking commit works off the REPLACE first *)
    unfold sd_commit; simpl.
    rewrite (on_conn_some _ (set_conn (Some w1) d) w1 eq_refl).
    unfold commit; simpl.
    set (w2 := autocommit_commit (set_db (fst (exec_stmt ADD_ITEM [p; q] (db w1))) (set_reqs [] w1))).
    assert (Hsc : forall f : option (list sqlval) -> M unit, bind (select_one RCommit []) f w1 = bind (select_one RCommit []) f w2).
    { intro f; unfold bind at 1 2;
        rewrite (select_one_after_ff w1 _ ADD_ITEM [p; q] RCommit [] Ha He Hw1r eq_refl eq_refl
                   (bind_params_pair _ _ _ _ Hp Hq)); reflexivity. }
    rewrite Hsc.
    assert (Hi2 : idle w2) by (unfold w2, autocommit_commit, idle; simpl;
                               destruct (w_autocommit w); simpl; auto).
    pose proof (select_one_commit_idle w2 Hi2) as H.
    destruct (select_one RCommit [] w2) as [r w3] eqn:E.
    destruct H as [-> [Hi3 [Hd3 _]]].
    rewrite (bind_ok _ _ w2 None w3) by exact E; unfold ret; simpl.
    split; [reflexivity|].
    apply (Hget _ w3); [reflexivity|reflexivity|].
    destruct Hi3 as [Ha3 [Hr3 He3]].
    apply get_after_replace with (enc_v := encode d v) (p := p); auto.
    right; split; [exact Hr3|]; exists (db w).
    rewrite Hd3; unfold w2, autocommit_commit; simpl; destruct (w_autocommit w); reflexivity.
  - split; [reflexivity|].
    apply (Hget _ w1); [reflexivity|reflexivity|].
    apply get_after_replace with (enc_v := encode d v) (p := p); auto.
Qed.

(** ** C6: [delete] *)




Lemma contains_idle d w key k p :
  conn d = Some w -> idle w -> serialize_key key = Ok k -> bind_param k = Bound p ->
  exists w1, contains key d
             = (Ok (match matching p (db w) with [] => false | _ => true end), set_conn (Some w1) d)
          /\ idle w1 /\ db w1 = db w /\ w_autocommit w1 = w_autocommit w.
Proof.
  intros Hc Hi Hk Hp.
  pose proof (select_one_idle w HAS_ITEM [k] [p] Hi (bind_params_one k p Hp)) as H.
  destruct (select_one (RSql HAS_ITEM) [k] w) as [r w1] eqn:E.
  destruct H as [Hr [Hi1 [Hd1 [_ Ha1]]]].
  exists w1; split; [|auto].
  unfold contains.
  rewrite (bind_ok _ _ d k d) by (unfold lift; rewrite Hk; reflexivity).
  unfold bind at 1; rewrite (on_conn_some _ d w Hc), E; simpl.
  rewrite Hr; simpl; destruct (matching p (db w)); reflexivity.
Qed.







(** ** C5: [get] of an absent key *)

(** C5: the [get] of the mapping protocol ([Mapping.get], and from Python
    3.12 [UserDict.get]) returns its default, [None] unless another is
    given, for every key whose normalized form [k] binds to an SQL value
    that no row matches, on a store with an idle connection: the absence is
    signalled by the default, no exception is raised. *)
Theorem C5_get_absent_default d w key k p dflt :
  conn d = Some w -> idle w ->
  serialize_key key = Ok k -> bind_param k = Bound p -> matching p (db w) = [] ->
  fst (mapping_get key dflt d) = Ok dflt /\ fst (userdict_get key dflt d) = Ok dflt.
Proof.
  intros Hc Hi Hk Hp Hm.
  split.
  - assert (Hg : exists d', getitem key d = (Raise (KeyError k), d')).
    { unfold getitem.
      rewrite (bind_ok _ _ d k d) by (unfold lift; rewrite Hk; reflexivity).
      pose proof (select_one_idle w GET_ITEM [k] [p] Hi (bind_params_one k p Hp)) as H.
      destruct (select_one (RSql GET_ITEM) [k] w) as [r w'] eqn:E.
      destruct H as [Hr _].
      unfold bind at 1; rewrite (on_conn_some _ d w Hc), E; simpl.
      rewrite Hr; simpl; rewrite Hm; simpl; eexists; reflexivity. }
    destruct Hg as [d' Hg]; unfold mapping_get; rewrite Hg; reflexivity.
  - destruct (contains_idle d w key k p Hc Hi Hk Hp) as [w1 [Hcont _]].
    unfold userdict_get; rewrite (bind_ok _ _ _ _ _ Hcont), Hm; reflexivity.
Qed.

(** ** C8: the key normalizer *)

Lemma str_app_assoc (s1 s2 s3 : string) : ((s1 ++ s2) ++ s3)%string = (s1 ++ (s2 ++ s3))%string.
Proof. induction s1 as [|c s1 IH]; simpl; [reflexivity | rewrite IH; reflexivity]. Qed.

Lemma str_app_inv_head (s u v : string) : (s ++ u)%string = (s ++ v)%string -> u = v.
Proof. induction s as [|c s IH]; simpl; [auto | intro H; injection H as H; auto]. Qed.

(** Of two strings that start two equal strings, one is a prefix of the other. *)
Lemma str_app_prefix (s1 s2 u v : string) :
  (s1 ++ u)%string = (s2 ++ v)%string -> String.prefix s1 s2 = true \/ String.prefix s2 s1 = true.
Proof.
  revert s2; induction s1 as [|c s1 IH]; intros s2 H; [left; destruct s2; reflexivity|].
  destruct s2 as [|c' s2]; [right; reflexivity|].
  simpl in H; injection H as <- H; simpl.
  destruct (ascii_dec c c) as [_|n]; [exact (IH s2 H) | contradiction (n eq_refl)].
Qed.

Definition all_ascii : list ascii := map ascii_of_nat (seq 0 256).

Lemma in_all_ascii c : In c all_ascii.
Proof.
  unfold all_ascii; rewrite <- (ascii_nat_embedding c); apply in_map, in_seq.
  pose proof (nat_ascii_bounded c); lia.
Qed.

(** The escapes of [json.encoder] form a prefix code, and none starts with
    a double quote: checked character by character. *)
Lemma json_escape_char_prefix_free c c' :
  (String.prefix (json_escape_char c) (json_escape_char c') ||
   String.prefix (json_escape_char c') (json_escape_char c))%bool = true -> c = c'.
Proof.
  assert (Hall : forallb (fun c => forallb (fun c' =>
            implb (String.prefix (json_escape_char c) (json_escape_char c') ||
                   String.prefix (json_escape_char c') (json_escape_char c))%bool
                  (Ascii.eqb c c')) all_ascii) all_ascii = true) by (vm_compute; reflexivity).
  intro H.
  rewrite forallb_forall in Hall; specialize (Hall c (in_all_ascii c)).
  rewrite forallb_forall in Hall; specialize (Hall c' (in_all_ascii c')).
  rewrite H in Hall; simpl in Hall; apply Ascii.eqb_eq; exact Hall.
Qed.

Lemma json_escape_char_head c : exists h t, json_escape_char c = String h t /\ h <> dq.
Proof.
  assert (Hall : forallb (fun c => match json_escape_char c with
                                   | String h _ => negb (Ascii.eqb h dq)
                                   | EmptyString => false
                                   end) all_ascii = true) by (vm_compute; reflexivity).
  rewrite forallb_forall in Hall; specialize (Hall c (in_all_ascii c)).
  destruct (json_escape_char c) as [|h t]; [discriminate|].
  exists h, t; split; [reflexivity|].
  intro Hh; subst h; rewrite Ascii.eqb_refl in Hall; discriminate.
Qed.

(** The escaped text of a JSON string is read back up to its closing
    quote: two escaped strings each followed by a quote start the same
    text only when they are equal. *)
Lemma json_escape_quote_inj a b r1 r2 :
  (json_escape a ++ String dq r1)%string = (json_escape b ++ String dq r2)%string -> a = b.
Proof.
  revert b; induction a as [|c a IH]; intros b H; destruct b as [|c' b]; simpl in H.
  - reflexivity.
  - destruct (json_escape_char_head c') as [h [t [Ht Hh]]].
    rewrite str_app_assoc, Ht in H; simpl in H; injection H as H _; congruence.
  - destruct (json_escape_char_head c) as [h [t [Ht Hh]]].
    rewrite str_app_assoc, Ht in H; simpl in H; injection H as H _; congruence.
  - rewrite !str_app_assoc in H.
    pose proof (json_escape_char_prefix_free c c') as Hc.
    assert (Heq : c = c') by (apply Hc; apply orb_true_iff; exact (str_app_prefix _ _ _ _ H)).
    subst c'; apply str_app_inv_head in H; f_equal; exact (IH b H).
Qed.

(** Two JSON texts that start with the quoted strings [a] and [b] differ
    when [a] and [b] do. *)
Lemma json_quote_app_neq a b u v : a <> b -> (json_quote a ++ u)%string <> (json_quote b ++ v)%string.
Proof.
  intros Hab H; apply Hab; unfold json_quote in H; simpl in H; injection H as H.
  rewrite !str_app_assoc in H; simpl in H; exact (json_escape_quote_inj a b _ _ H).
Qed.

Lemma serialize_dict2 a b x y sx sy :
  json_dumps x = Some sx -> json_dumps y = Some sy ->
  serialize_key (PDict [(PStr a, x); (PStr b, y)])
  = Ok (PStr ("{" ++ ((json_quote a ++ ": " ++ sx) ++ ", " ++ json_quote b ++ ": " ++ sy) ++ "}")).
Proof. intros Hx Hy; unfold serialize_key; simpl; rewrite Hx, Hy; reflexivity. Qed.

Lemma serialize_set2 a b :
  serialize_key (PSet [PStr a; PStr b]) = Ok (PStr ("[" ++ (json_quote a ++ ", " ++ json_quote b) ++ "]")).
Proof. reflexivity. Qed.

(** C8 (counterexample): the dicts [{"a": 1, "b": 2}] and [{"b": 2, "a": 1}]
    are equal in Python, but [json.dumps] keeps insertion order and the
    normalizer does not sort, so they normalize to different strings. *)
Lemma C8_equal_dicts_differ :
  let k1 := PDict [(PStr "a", PInt 1); (PStr "b", PInt 2)] in
  let k2 := PDict [(PStr "b", PInt 2); (PStr "a", PInt 1)] in
  py_eq k1 k2 = true /\ serialize_key k1 <> serialize_key k2.
Proof. vm_compute; split; [reflexivity | discriminate]. Qed.

(** C8 (amended): every key that is not a tuple, frozenset, set or dict
    passes through unchanged. A tuple, a frozenset and a set of the same
    elements in the same iteration order normalize alike, to the
    [json.dumps] string of that list, and every composite key normalizes to
    a string or raises [TypeError]. The normalizer follows iteration and
    insertion order: for all distinct strings [a] and [b] and every values
    [x] and [y] that [json.dumps] serializes, the equal dicts
    [{a: x, b: y}] and [{b: y, a: x}] normalize to different strings, and so
    do the equal sets [{a, b}] and [{b, a}] when they iterate in the two
    orders. *)
Theorem C8_order_matters a b x y sx sy :
  a <> b -> json_dumps x = Some sx -> json_dumps y = Some sy ->
  py_eq x x = true -> py_eq y y = true ->
  (forall k, is_composite k = false -> serialize_key k = Ok k) /\
  (forall l, serialize_key (PTuple l) = serialize_key (PSet l) /\
             serialize_key (PFrozenset l) = serialize_key (PSet l)) /\
  (forall k, is_composite k = true ->
     serialize_key k = Raise TypeError \/ exists s, serialize_key k = Ok (PStr s)) /\
  (py_eq (PDict [(PStr a, x); (PStr b, y)]) (PDict [(PStr b, y); (PStr a, x)]) = true /\
   serialize_key (PDict [(PStr a, x); (PStr b, y)]) <> serialize_key (PDict [(PStr b, y); (PStr a, x)])) /\
  (py_eq (PSet [PStr a; PStr b]) (PSet [PStr b; PStr a]) = true /\
   serialize_key (PSet [PStr a; PStr b]) <> serialize_key (PSet [PStr b; PStr a])).
Proof.
  intros Hab Hx Hy Hxx Hyy.
  split; [intros k Hk; destruct k; simpl in Hk; try discriminate; reflexivity|].
  split; [intro l; split; reflexivity|].
  split.
  { intros k Hk; clear Hx Hy; destruct k; simpl in Hk; try discriminate; unfold serialize_key;
      unfold of_json; destruct json_dumps; first [right; eexists; reflexivity | left; reflexivity]. }
  split; split.
  - simpl; rewrite !String.eqb_refl, Hxx, Hyy; simpl; rewrite !orb_true_r; reflexivity.
  - rewrite (serialize_dict2 a b x y sx sy Hx Hy), (serialize_dict2 b a y x sy sx Hy Hx).
    intro H; apply (f_equal (fun r => match r with Ok (PStr s) => s | _ => EmptyString end)) in H.
    cbv beta iota in H; rewrite !str_app_assoc in H; apply str_app_inv_head in H.
    exact (json_quote_app_neq a b _ _ Hab H).
  - simpl; rewrite !String.eqb_refl; simpl; rewrite !orb_true_r; reflexivity.
  - rewrite !serialize_set2.
    intro H; apply (f_equal (fun r => match r with Ok (PStr s) => s | _ => EmptyString end)) in H.
    cbv beta iota in H; rewrite !str_app_assoc in H; apply str_app_inv_head in H.
    exact (json_quote_app_neq a b _ _ Hab H).
Qed.

(** ** C4: a failing statement and its result channel *)

Lemma run_worker_dead n s : alive s = false -> run_worker n s = s.
Proof.
  revert s; induction n as [|n IH]; intros s H; simpl; [reflexivity|].
  unfold worker_step at 1; rewrite H; simpl; apply IH; exact H.
Qed.

(** C4 (code bug, at the failing input): binding the int [2 ** 63] raises
    [OverflowError], which the [except sqlite3.Error] of [run] does not
    catch: the worker thread ends, [NO_MORE] is never put, the caller of
    [d[2 ** 63]] blocks forever, and every command queued later stays
    queued. *)
Theorem C4_overflow_key_hangs :
  let '(r, d1) := getitem (PInt (2 ^ 63)%Z) fresh_store in
  r = Hang /\
  exists w, conn d1 = Some w /\ alive w = false /\
    forall n c, reqs (run_worker n (set_reqs (reqs w ++ [c])%list w)) = (reqs w ++ [c])%list.
Proof.
  destruct (getitem _ _) as [r d1] eqn:E; vm_compute in E; injection E as <- <-.
  split; [reflexivity|].
  eexists; split; [reflexivity|]; split; [reflexivity|].
  intros n c; rewrite run_worker_dead by reflexivity; reflexivity.
Qed.

(** ** C9: what a closed store still accepts *)

(** A graceful close of an idle connection: [select_one(CLOSE)] gets its
    [NO_MORE], then [join()] returns as the worker has left its loop. *)
Lemma close_idle w :
  idle w -> let '(r, w') := close false w in r = Ok tt /\ alive w' = false.
Proof.
  intros [Ha [Hr He]].
  destruct w as [rq ex t du ch nc al ac]; simpl in Ha, Hr, He |- *; subst rq ex al.
  unfold close, select_one, bind, new_queue, execute, check_raise_error, enqueue, wait_worker, drain; simpl.
  unfold worker_step, put, res_get; simpl; rewrite !Nat.eqb_refl; simpl; rewrite ?Nat.eqb_refl; simpl.
  unfold ret, join; simpl; split; reflexivity.
Qed.

Lemma sd_close_idle d w :
  conn d = Some w -> idle w ->
  let '(r, d1) := sd_close false d in r = Ok tt /\ conn d1 = None.
Proof.
  intros Hc Hi; unfold sd_close; rewrite Hc; rewrite andb_true_r.
  assert (Hcl : forall d2 w2, conn d2 = Some w2 -> idle w2 ->
            let '(r, d1) := (on_conn (close false) ;;; drop_conn) d2 in r = Ok tt /\ conn d1 = None).
  { intros d2 w2 Hc2 Hi2; unfold bind at 1; rewrite (on_conn_some _ d2 w2 Hc2).
    pose proof (close_idle w2 Hi2) as H; destruct (close false w2) as [r w3]; destruct H as [-> _].
    simpl; split; reflexivity. }
  destruct (w_autocommit w).
  - assert (Hcm : exists w2, commit true w = (Ok tt, w2) /\ idle w2).
    { pose proof (select_one_commit_idle w Hi) as H.
      unfold commit, bind; destruct (select_one RCommit [] w) as [r w2]; destruct H as [-> [Hi2 _]].
      exists w2; split; [reflexivity | exact Hi2]. }
    destruct Hcm as [w2 [Hcm Hi2]].
    rewrite (bind_ok _ _ d tt (set_conn (Some w2) d)) by (rewrite (on_conn_some _ d w Hc), Hcm; reflexivity).
    exact (Hcl (set_conn (Some w2) d) w2 eq_refl Hi2).
  - unfold bind at 1; simpl; exact (Hcl d w Hc Hi).
Qed.

Lemma closed_store_ops d :
  conn d = None ->
  (forall b, sd_commit b d = (Ok tt, d)) /\
  (forall force, sd_close force d = (Ok tt, d)) /\
  (forall key, fst (getitem key d) =
     match serialize_key key with Ok _ => Raise AttributeError | Raise e => Raise e | Hang => Hang end) /\
  (forall key, fst (contains key d) =
     match serialize_key key with Ok _ => Raise AttributeError | Raise e => Raise e | Hang => Hang end) /\
  (forall key v, read_only d = false -> fst (setitem key v d) =
     match serialize_key key with Ok _ => Raise AttributeError | Raise e => Raise e | Hang => Hang end) /\
  enter d = (Ok tt, set_conn (Some (new_conn (file d) (s_autocommit d))) d).
Proof.
  intro H; repeat split.
  - intro b; unfold sd_commit; rewrite H; reflexivity.
  - intro f; unfold sd_close; rewrite H; reflexivity.
  - intro key; unfold getitem, bind, lift, on_conn; destruct (serialize_key key); rewrite ?H; reflexivity.
  - intro key; unfold contains, bind, lift, on_conn; destruct (serialize_key key); rewrite ?H; reflexivity.
  - intros key v Hro; unfold setitem, bind, lift, refuse_if_ro, get_dict, on_conn;
      destruct (serialize_key key); rewrite ?Hro, ?H; reflexivity.
  - unfold enter; rewrite H; reflexivity.
Qed.

(** C9 (counterexample): close a fresh store; a blocking commit afterwards
    returns normally, and [__enter__] opens a new connection whose worker
    runs. *)
Lemma C9_commit_after_close_accepted :
  let '(r0, d0) := sd_close false fresh_store in
  r0 = Ok tt /\ conn d0 = None /\ sd_commit true d0 = (Ok tt, d0) /\
  exists w, conn (snd (enter d0)) = Some w /\ alive w = true.
Proof.
  destruct (sd_close false fresh_store) as [r0 d0] eqn:E; vm_compute in E; injection E as <- <-.
  split; [reflexivity|]; split; [reflexivity|]; split; [reflexivity|].
  eexists; split; reflexivity.
Qed.

(** C9 (amended): a graceful [close()] of a store whose connection is idle
    returns normally and drops the connection ([self.conn = None]). From
    then on, [commit] (blocking or not) and [close] are silently accepted
    no-ops; [get], [contains] and, on a writable store, [set] raise
    [AttributeError] once the key is normalized; and [__enter__] is not
    rejected: it reopens the store with a new connection on the file's
    committed table. *)
Theorem C9_closed_store d w :
  conn d = Some w -> idle w ->
  let '(r, d1) := sd_close false d in
  r = Ok tt /\ conn d1 = None /\
  (forall b, sd_commit b d1 = (Ok tt, d1)) /\
  (forall force, sd_close force d1 = (Ok tt, d1)) /\
  (forall key, fst (getitem key d1) =
     match serialize_key key with Ok _ => Raise AttributeError | Raise e => Raise e | Hang => Hang end) /\
  (forall key, fst (contains key d1) =
     match serialize_key key with Ok _ => Raise AttributeError | Raise e => Raise e | Hang => Hang end) /\
  (forall key v, read_only d1 = false -> fst (setitem key v d1) =
     match serialize_key key with Ok _ => Raise AttributeError | Raise e => Raise e | Hang => Hang end) /\
  enter d1 = (Ok tt, set_conn (Some (new_conn (file d1) (s_autocommit d1))) d1).
Proof.
  intros Hc Hi; pose proof (sd_close_idle d w Hc Hi) as H.
  destruct (sd_close false d) as [r d1]; destruct H as [-> Hn].
  split; [reflexivity|]; split; [exact Hn|]; exact (closed_store_ops d1 Hn).
Qed.


(** ** C7: blocking and fire-and-forget commits *)

Lemma chan_take_put_other ch ch' m : forall c,
  ch' <> ch -> chan_take ch c = None -> chan_take ch (chan_put ch' m c) = None.
Proof.
  induction c as [|[n ms] r IH]; intros Hne H; simpl in *; [reflexivity|].
  destruct (Nat.eqb n ch') eqn:E1; destruct (Nat.eqb n ch) eqn:E2; simpl.
  - apply Nat.eqb_eq in E1; apply Nat.eqb_eq in E2; congruence.
  - rewrite E2; destruct (chan_take ch r); [destruct p; discriminate | reflexivity].
  - rewrite E2; destruct ms; [reflexivity | discriminate].
  - rewrite E2; rewrite IH; [reflexivity | exact Hne |].
    destruct (chan_take ch r) as [[m' r']|]; [discriminate | reflexivity].
Qed.

Lemma fold_put_other ch ch' rows : forall s,
  ch' <> ch -> chan_take ch (chans s) = None ->
  chan_take ch (chans (fold_left (fun s r => put ch' (MRow r) s) rows s)) = None.
Proof.
  induction rows as [|r rows IH]; intros s Hne H; simpl; [exact H|].
  apply IH; [exact Hne|]; unfold put; simpl; apply chan_take_put_other; assumption.
Qed.

Lemma reply_other ch res rows s :
  res <> Some ch -> chan_take ch (chans s) = None -> chan_take ch (chans (reply res rows s)) = None.
Proof.
  intros Hne H; destruct res as [ch'|]; simpl; [|exact H].
  unfold put; simpl; apply chan_take_put_other; [congruence|].
  apply fold_put_other; [congruence | exact H].
Qed.

(** Answering on a channel touches nothing but the channels. *)
Lemma fold_put_fields ch rows : forall s,
  let s' := fold_left (fun s r => put ch (MRow r) s) rows s in
  reqs s' = reqs s /\ exc s' = exc s /\ db s' = db s /\ durable s' = durable s /\
  alive s' = alive s /\ w_autocommit s' = w_autocommit s.
Proof.
  induction rows as [|r rows IH]; intro s; simpl; [repeat split|].
  destruct (IH (put ch (MRow r) s)) as [H1 [H2 [H3 [H4 [H5 H6]]]]].
  rewrite H1, H2, H3, H4, H5, H6; repeat split.
Qed.

Lemma reply_fields res rows s :
  let s' := reply res rows s in
  reqs s' = reqs s /\ exc s' = exc s /\ db s' = db s /\ durable s' = durable s /\
  alive s' = alive s /\ w_autocommit s' = w_autocommit s.
Proof.
  destruct res as [ch|]; [|simpl; repeat split].
  destruct (fold_put_fields ch rows s) as [H1 [H2 [H3 [H4 [H5 H6]]]]].
  revert H1 H2 H3 H4 H5 H6; unfold reply; generalize (fold_left (fun s r => put ch (MRow r) s) rows s).
  intros X H1 H2 H3 H4 H5 H6; simpl; rewrite H1, H2, H3, H4, H5, H6; repeat split.
Qed.

(** One step of the worker on a command answering on another channel leaves
    the channel [ch] empty, and either ends the worker or pops the command. *)
Lemma worker_step_other ch s c rest :
  alive s = true -> reqs s = c :: rest -> cres c <> Some ch -> chan_take ch (chans s) = None ->
  chan_take ch (chans (worker_step s)) = None /\
  (alive (worker_step s) = false \/ reqs (worker_step s) = rest).
Proof.
  intros Ha Hr Hne H; unfold worker_step; rewrite Ha, Hr; simpl.
  destruct c as [q a res]; simpl in Hne |- *.
  destruct q as [st| |].
  - destruct (bind_params (stmt_arity st) a) as [ps|e|].
    + destruct (exec_stmt st ps (db s)) as [t' rows].
      set (s1 := set_db t' (set_reqs rest s)).
      destruct (reply_fields res rows s1) as [H1 [_ [_ [_ [_ H6]]]]].
      assert (Hc : chan_take ch (chans (reply res rows s1)) = None) by (apply reply_other; assumption).
      unfold autocommit_commit; destruct (w_autocommit (reply res rows s1)); simpl;
        split; try exact Hc; right; rewrite H1; reflexivity.
    + set (s1 := set_exc (Some e) (set_reqs rest s)).
      destruct (reply_fields res [] s1) as [H1 [_ [_ [_ [_ H6]]]]].
      assert (Hc : chan_take ch (chans (reply res [] s1)) = None) by (apply reply_other; assumption).
      unfold autocommit_commit; destruct (w_autocommit (reply res [] s1)); simpl;
        split; try exact Hc; right; rewrite H1; reflexivity.
    + simpl; split; [exact H | left; reflexivity].
  - destruct res as [ch'|]; simpl; split; try (right; reflexivity); try exact H.
    apply chan_take_put_other; [congruence | exact H].
  - destruct res as [ch'|]; simpl; split; try (left; reflexivity); try exact H.
    apply chan_take_put_other; [congruence | exact H].
Qed.

(** Working off the queue up to a blocking commit answering on [ch]: either
    [ch] stays empty (the worker ended before reaching the commit), or the
    worker executed the commit as the last queued command. *)
Lemma run_commit ch pre : forall s,
  reqs s = (pre ++ [mkcmd RCommit [] (Some ch)])%list ->
  Forall (fun c => cres c <> Some ch) pre ->
  chan_take ch (chans s) = None ->
  chan_take ch (chans (run_worker (S (List.length pre)) s)) = None \/
  (reqs (run_worker (S (List.length pre)) s) = [] /\
   durable (run_worker (S (List.length pre)) s) = db (run_worker (S (List.length pre)) s)).
Proof.
  induction pre as [|c pre IH]; intros s Hr HF Hc.
  - simpl; destruct (alive s) eqn:Ha; unfold worker_step; rewrite Ha; simpl.
    + rewrite Hr; simpl; right; split; reflexivity.
    + left; exact Hc.
  - inversion HF as [|? ? Hne HF']; subst.
    change (run_worker (S (List.length (c :: pre))) s)
      with (run_worker (S (List.length pre)) (worker_step s)).
    destruct (alive s) eqn:Ha.
    + destruct (worker_step_other ch s c (pre ++ [mkcmd RCommit [] (Some ch)])%list Ha Hr Hne Hc)
        as [Hc' [Hd | Hr']].
      * left; rewrite run_worker_dead by exact Hd; exact Hc'.
      * apply IH; assumption.
    + assert (Hw : worker_step s = s) by (unfold worker_step; rewrite Ha; reflexivity).
      rewrite Hw; left; rewrite run_worker_dead by exact Ha; exact Hc.
Qed.

(** C7: [SqliteMultiThread.commit]. When the result channels of the queued
    commands were all created before (the queue [Queue()] of a caller is
    fresh), a blocking commit that returns normally returns after the worker
    has worked off the whole queue and executed the commit, so the table is
    durable, and after any deferred failure has been raised (none is left
    pending). A non-blocking commit raises a failure already recorded, and
    otherwise only enqueues the commit command: nothing is executed and the
    durable table is the one before the call. *)
Theorem C7_commit_contract w :
  (forall c ch, In c (reqs w) -> cres c = Some ch -> ch < next_ch w) ->
  (forall w', commit true w = (Ok tt, w') -> reqs w' = [] /\ durable w' = db w' /\ exc w' = None) /\
  commit false w = match exc w with
                   | None => (Ok tt, set_reqs (reqs w ++ [mkcmd RCommit [] None])%list w)
                   | Some e => (Raise (Deferred e), set_exc None w)
                   end.
Proof.
  intros Hch; split.
  - intros w' H.
    unfold commit, bind at 1 in H.
    destruct (select_one RCommit [] w) as [r w1] eqn:E; destruct r; try discriminate.
    injection H as <-.
    unfold select_one, bind at 1, new_queue in E.
    set (s1 := mkW (reqs w) (exc w) (db w) (durable w) ((next_ch w, []) :: chans w)
                   (S (next_ch w)) (alive w) (w_autocommit w)) in E.
    destruct (exc w) eqn:He.
    + unfold bind, execute, check_raise_error in E; simpl in E; rewrite ?He in E; discriminate.
    + set (s2 := set_reqs (reqs s1 ++ [mkcmd RCommit [] (Some (next_ch w))])%list s1) in E.
      rewrite (bind_ok _ _ s1 tt s2) in E by (apply execute_ok; first [reflexivity | simpl; exact He]).
      rewrite (bind_ok _ _ s2 tt (drain s2)) in E by reflexivity.
      unfold bind at 1, res_get in E.
      destruct (chan_take (next_ch w) (chans (drain s2))) as [[m c]|] eqn:Ht; [|discriminate].
      unfold bind, check_raise_error in E; simpl in E.
      destruct (exc (drain s2)) eqn:He2; [discriminate|].
      injection E as _ <-.
      assert (Hrun : chan_take (next_ch w) (chans (drain s2)) = None \/
                     (reqs (drain s2) = [] /\ durable (drain s2) = db (drain s2))).
      { unfold drain.
        replace (List.length (reqs s2)) with (S (List.length (reqs w)))
          by (unfold s2, s1; simpl; rewrite length_app; simpl; lia).
        apply run_commit.
        - reflexivity.
        - apply Forall_forall; intros c' Hin Heq.
          specialize (Hch c' (next_ch w) Hin Heq); lia.
        - simpl; rewrite Nat.eqb_refl; reflexivity. }
      destruct Hrun as [Hn | [Hr Hd]]; [congruence|].
      simpl; repeat split; assumption.
  - unfold commit, execute, bind, check_raise_error, enqueue; destruct (exc w); reflexivity.
Qed.

(** ** The concurrent system *)

Lemma caller_run_reqs op w :
  reqs (snd (caller_run op w)) = match op with OpEnqueue c => (reqs w ++ [c])%list | _ => reqs w end.
Proof.
  destruct op as [c| | |ch]; simpl.
  - reflexivity.
  - unfold check_raise_error; destruct (exc w); reflexivity.
  - reflexivity.
  - unfold bind, res_get; destruct (chan_take ch (chans w)) as [[m c]|]; reflexivity.
Qed.

Lemma caller_run_core op w : core (snd (caller_run op w)) = core w.
Proof.
  destruct op as [c| | |ch]; simpl.
  - reflexivity.
  - unfold check_raise_error; destruct (exc w); reflexivity.
  - reflexivity.
  - unfold bind, res_get; destruct (chan_take ch (chans w)) as [[m c]|]; reflexivity.
Qed.

Lemma caller_run_exc op w :
  exc (snd (caller_run op w)) = match op with OpCheck => None | _ => exc w end.
Proof.
  destruct op as [c| | |ch]; simpl.
  - reflexivity.
  - unfold check_raise_error; destruct (exc w) eqn:E; [reflexivity | exact E].
  - reflexivity.
  - unfold bind, res_get; destruct (chan_take ch (chans w)) as [[m c]|]; reflexivity.
Qed.

(** The worker takes the command at the head of the queue. *)
Lemma worker_step_pops s c rest :
  alive s = true -> reqs s = c :: rest -> reqs (worker_step s) = rest.
Proof.
  intros Ha Hr; unfold worker_step; rewrite Ha, Hr; simpl.
  destruct c as [q a res]; simpl; destruct q as [st| |].
  - destruct (bind_params (stmt_arity st) a) as [ps|e|].
    + destruct (exec_stmt st ps (db s)) as [t' rows].
      destruct (reply_fields res rows (set_db t' (set_reqs rest s))) as [H1 _].
      unfold autocommit_commit; destruct (w_autocommit _); simpl; rewrite H1; reflexivity.
    + destruct (reply_fields res [] (set_exc (Some e) (set_reqs rest s))) as [H1 _].
      unfold autocommit_commit; destruct (w_autocommit _); simpl; rewrite H1; reflexivity.
    + reflexivity.
  - destruct res; reflexivity.
  - destruct res; reflexivity.
Qed.

(** The worker records a failure exactly when the statement it takes
    fails to bind with an [sqlite3.Error]. *)
Lemma worker_step_exc s c rest :
  alive s = true -> reqs s = c :: rest ->
  exc (worker_step s) = match creq c with
                        | RSql st => match bind_params (stmt_arity st) (carg c) with
                                     | BindFailed e => Some e
                                     | _ => exc s
                                     end
                        | _ => exc s
                        end.
Proof.
  intros Ha Hr; unfold worker_step; rewrite Ha, Hr; simpl.
  destruct c as [q a res]; simpl; destruct q as [st| |].
  - destruct (bind_params (stmt_arity st) a) as [ps|e|].
    + destruct (exec_stmt st ps (db s)) as [t' rows].
      destruct (reply_fields res rows (set_db t' (set_reqs rest s))) as [_ [H2 _]].
      unfold autocommit_commit; destruct (w_autocommit _); simpl; rewrite H2; reflexivity.
    + destruct (reply_fields res [] (set_exc (Some e) (set_reqs rest s))) as [_ [H2 _]].
      unfold autocommit_commit; destruct (w_autocommit _); simpl; rewrite H2; reflexivity.
    + reflexivity.
  - destruct res; reflexivity.
  - destruct res; reflexivity.
Qed.

Lemma worker_step_exc_kept s c rest :
  alive s = true -> reqs s = c :: rest -> fails_on_worker c = false -> exc (worker_step s) = exc s.
Proof.
  intros Ha Hr Hf; rewrite (worker_step_exc s c rest Ha Hr).
  unfold fails_on_worker in Hf; destruct (creq c) as [st| |]; [|reflexivity|reflexivity].
  destruct (bind_params (stmt_arity st) (carg c)); first [reflexivity | discriminate].
Qed.

Lemma worker_step_exc_failed s c rest :
  alive s = true -> reqs s = c :: rest -> fails_on_worker c = true -> exc (worker_step s) <> None.
Proof.
  intros Ha Hr Hf; rewrite (worker_step_exc s c rest Ha Hr).
  unfold fails_on_worker in Hf; destruct (creq c) as [st| |]; try discriminate.
  destruct (bind_params (stmt_arity st) (carg c)); first [discriminate | congruence].
Qed.

Lemma core_autocommit_reply res rows s :
  core (autocommit_commit (reply res rows s)) = core (autocommit_commit s).
Proof.
  destruct (reply_fields res rows s) as [_ [_ [H3 [H4 [H5 H6]]]]].
  unfold autocommit_commit; rewrite H6.
  destruct (w_autocommit s) eqn:E; unfold core; simpl; rewrite ?H3, ?H4, ?H5, ?H6, ?E; reflexivity.
Qed.

(** A worker step only depends, for its effect on [core], on the core and
    on the command at the head of the queue. *)
Lemma core_step_congr s1 s2 :
  core s1 = core s2 -> hd_error (reqs s1) = hd_error (reqs s2) ->
  core (worker_step s1) = core (worker_step s2).
Proof.
  intros Hc Hh.
  destruct s1 as [r1 e1 t1 du1 ch1 n1 al1 ac1], s2 as [r2 e2 t2 du2 ch2 n2 al2 ac2].
  unfold core in Hc; simpl in Hc, Hh; injection Hc as <- <- <- <-.
  unfold worker_step; simpl.
  destruct al1; simpl; [|reflexivity].
  destruct r1 as [|c rest1], r2 as [|c' rest2]; simpl in Hh; try discriminate; [reflexivity|].
  injection Hh as <-.
  destruct c as [q a res]; simpl.
  destruct q as [st| |].
  - destruct (bind_params (stmt_arity st) a) as [ps|e|].
    + destruct (exec_stmt st ps t1) as [t' rows].
      rewrite !core_autocommit_reply; destruct ac1; reflexivity.
    + rewrite !core_autocommit_reply; destruct ac1; reflexivity.
    + reflexivity.
  - destruct res; reflexivity.
  - destruct res; reflexivity.
Qed.

Lemma apply_log_app cs1 cs2 w : apply_log (cs1 ++ cs2) w = apply_log cs2 (apply_log cs1 w).
Proof. unfold apply_log; apply fold_left_app. Qed.

Lemma worker_step_alive s : alive (worker_step s) = true -> alive s = true.
Proof.
  intro H; destruct (alive s) eqn:Ha; [reflexivity|].
  unfold worker_step in H; rewrite Ha in H; simpl in H; congruence.
Qed.

(** A worker that has ended stays ended. *)
Lemma apply_log_alive cs : forall w, alive (apply_log cs w) = true -> alive w = true.
Proof.
  induction cs as [|c cs IH]; intros w H; simpl in H; [exact H|].
  exact (worker_step_alive _ (IH _ H)).
Qed.

(** In every reachable state the ghost logs agree with the queue, and the
    core of the connection is the one the worker reaches by taking the
    commands it took, in order, from the initial connection. *)
Lemma reachable_inv w0 s :
  reachable w0 s ->
  enq_log s = (applied s ++ reqs (sys_w s))%list /\ core (sys_w s) = core (apply_log (applied s) w0).
Proof.
  induction 1 as [Hw | s s' R IH Hs].
  - simpl; rewrite Hw; split; reflexivity.
  - destruct IH as [IH1 IH2]; destruct Hs as [op s | c rest s Ha Hr]; simpl.
    + split; [rewrite caller_run_reqs; destruct op; rewrite ?IH1, ?app_assoc; reflexivity|].
      rewrite caller_run_core; exact IH2.
    + split; [rewrite (worker_step_pops _ c rest Ha Hr), IH1, Hr, <- app_assoc; reflexivity|].
      rewrite apply_log_app; simpl.
      apply core_step_congr; [exact IH2 | rewrite Hr; reflexivity].
Qed.

(** A property of the connection that every caller step keeps, and every
    worker step on a command of a given kind keeps, holds in every state
    reached while only commands of that kind were enqueued. *)
Lemma sys_invariant (Q : wstate -> Prop) (P : cmd -> Prop) w0 :
  Q w0 ->
  (forall op w, Q w -> Q (snd (caller_run op w))) ->
  (forall w c rest, Q w -> alive w = true -> reqs w = c :: rest -> P c -> Q (worker_step w)) ->
  forall s, reachable w0 s -> (forall c, In c (enq_log s) -> P c) -> Q (sys_w s).
Proof.
  intros H0 Hc Hw s R; induction R as [Hr | s s' R IH Hs]; intro HP; [exact H0|].
  destruct Hs as [op s | c rest s Ha Hr]; simpl in *.
  - apply Hc, IH; intros c0 Hin; apply HP.
    destruct op; try exact Hin; apply in_app_iff; left; exact Hin.
  - apply (Hw _ c rest); [apply IH; exact HP | exact Ha | exact Hr |].
    apply HP; rewrite (proj1 (reachable_inv w0 s R)), Hr; apply in_app_iff; right; left; reflexivity.
Qed.

(** Starting with no pending failure, and while no enqueued command fails on
    the worker, no failure is ever pending. *)
Lemma sys_no_fail w0 s :
  exc w0 = None -> reachable w0 s ->
  (forall c, In c (enq_log s) -> fails_on_worker c = false) -> exc (sys_w s) = None.
Proof.
  intro He; apply (sys_invariant (fun w => exc w = None) (fun c => fails_on_worker c = false) w0 He).
  - intros op w Hw; rewrite caller_run_exc; destruct op; first [reflexivity | exact Hw].
  - intros w c rest Hw Ha Hr Hf; rewrite (worker_step_exc_kept w c rest Ha Hr Hf); exact Hw.
Qed.




(** The rows of a key [p] after a statement that keeps them. *)
Lemma matching_without_other k p t : sql_key_eq k p = false -> matching p (without k t) = matching p t.
Proof.
  intro Hkp; induction t as [|r t IH]; [reflexivity|].
  unfold matching, without in *; simpl.
  destruct (sql_key_eq (fst r) k) eqn:E1; simpl.
  - destruct (sql_key_eq (fst r) p) eqn:E2; [|exact IH].
    rewrite sql_key_eq_sym in E1; pose proof (sql_key_eq_trans _ _ _ E1 E2); congruence.
  - destruct (sql_key_eq (fst r) p); [f_equal|]; exact IH.
Qed.

Lemma db_autocommit_reply res rows s : db (autocommit_commit (reply res rows s)) = db s.
Proof.
  destruct (reply_fields res rows s) as [_ [_ [H3 [_ [_ H6]]]]].
  unfold autocommit_commit; rewrite H6; destruct (w_autocommit s); exact H3.
Qed.

Lemma keeps_key_step p s c rest :
  alive s = true -> reqs s = c :: rest -> keeps_key p c = true ->
  matching p (db (worker_step s)) = matching p (db s).
Proof.
  intros Ha Hr Hk; unfold worker_step; rewrite Ha, Hr; simpl.
  destruct c as [q a res]; unfold keeps_key in Hk; simpl in Hk |- *.
  destruct q as [st| |]; [| destruct res; reflexivity | discriminate].
  destruct (bind_params (stmt_arity st) a) as [ps|e|]; [| rewrite db_autocommit_reply; reflexivity | reflexivity].
  destruct (exec_stmt st ps (db s)) as [t' rows] eqn:Ex; rewrite db_autocommit_reply; simpl.
  replace t' with (fst (exec_stmt st ps (db s))) by (rewrite Ex; reflexivity).
  destruct st; destruct ps as [|x [|y [|z ps]]]; simpl in Hk |- *; try reflexivity; try discriminate.
  - apply negb_true_iff in Hk; rewrite matching_app, matching_without_other by exact Hk.
    unfold matching at 2; simpl; rewrite sql_key_eq_aff_l, Hk, app_nil_r; reflexivity.
  - apply negb_true_iff in Hk; apply matching_without_other; exact Hk.
Qed.

(** The worker's answer to a point query at the head of the queue. *)
Lemma worker_step_get s cr rest p :
  alive s = true -> reqs s = cr :: rest -> creq cr = RSql GET_ITEM ->
  bind_params 1 (carg cr) = BoundAll [p] ->
  worker_step s = autocommit_commit (reply (cres cr) (map (fun r => [snd r]) (matching p (db s)))
                                           (set_reqs rest s)).
Proof.
  intros Ha Hr Hq Hb; unfold worker_step; rewrite Ha, Hr; simpl.
  rewrite Hq; simpl; rewrite Hb; simpl.
  f_equal; f_equal; destruct s; reflexivity.
Qed.

(** ** C3: when a Deferred Failure is reported *)



(** ** C1: one queue, worked off in order *)

(** C1: in every state reachable from a connection by interleaving the
    steps of any calling threads with the steps of the worker, the commands
    the worker has taken, followed by the commands still queued, are exactly
    the commands in the order they were enqueued; hence, when [c1] was
    enqueued before [c2] and the worker has taken [c2], it took [c1] before
    it. A point query enqueued after a [REPLACE] of the same non-NULL key
    observes that write: when the worker takes the query, the commands
    enqueued between the two leaving the rows of that key as they are, it
    answers with the written value. *)
Theorem C1_fifo w0 s :
  reachable w0 s ->
  enq_log s = (applied s ++ reqs (sys_w s))%list /\
  (forall i j c1 c2, i < j -> nth_error (enq_log s) i = Some c1 ->
     nth_error (applied s) j = Some c2 -> nth_error (applied s) i = Some c1) /\
  (forall pre cw mid cr rest k v p q,
     enq_log s = (pre ++ cw :: mid ++ cr :: rest)%list -> reqs (sys_w s) = cr :: rest ->
     alive (sys_w s) = true ->
     creq cw = RSql ADD_ITEM -> carg cw = [k; v] ->
     bind_param k = Bound p -> p <> SNull -> bind_param v = Bound q ->
     forallb (keeps_key p) mid = true ->
     creq cr = RSql GET_ITEM -> carg cr = [k] ->
     worker_step (sys_w s) = autocommit_commit (reply (cres cr) [[q]] (set_reqs rest (sys_w s)))).
Proof.
  intro R.
  destruct (reachable_inv w0 s R) as [Hinv Hcore].
  split; [exact Hinv|]; split.
  - intros i j c1 c2 Hij H1 H2.
    assert (Hj : j < List.length (applied s)) by (apply nth_error_Some; congruence).
    rewrite Hinv, nth_error_app1 in H1 by lia; exact H1.
  - intros pre cw mid cr rest k v p q Hlog Hr Ha Hqw Haw Hp Hn Hq Hmid Hqr Har.
    assert (Happ : applied s = (pre ++ cw :: mid)%list).
    { rewrite Hinv, Hr in Hlog.
      replace (pre ++ cw :: mid ++ cr :: rest)%list with ((pre ++ cw :: mid) ++ cr :: rest)%list in Hlog
        by (rewrite <- app_assoc; reflexivity).
      exact (app_inv_tail _ _ _ Hlog). }
    rewrite Happ, apply_log_app in Hcore; simpl in Hcore.
    set (a := apply_log pre w0) in Hcore.
    set (b := worker_step (set_reqs [cw] a)) in Hcore.
    assert (Hab : alive (apply_log mid b) = true)
      by (unfold core in Hcore; injection Hcore as H1 _ _ _; congruence).
    assert (Hb : alive b = true) by exact (apply_log_alive mid b Hab).
    assert (Ha0 : alive a = true) by exact (worker_step_alive _ Hb).
    (* the REPLACE leaves exactly the written row for the key *)
    assert (Hmb : matching p (db b) = [(text_affinity p, q)]).
    { unfold b, worker_step; simpl; rewrite Ha0; simpl; rewrite Hqw; simpl; rewrite Haw.
      rewrite (bind_params_pair k v p q Hp Hq); simpl.
      rewrite db_autocommit_reply; simpl; apply matching_after_replace; exact Hn. }
    (* the commands in between leave it *)
    assert (Hkeep : forall cs x, forallb (keeps_key p) cs = true -> alive (apply_log cs x) = true ->
                      matching p (db (apply_log cs x)) = matching p (db x)).
    { induction cs as [|c cs IH]; intros x Hcs Hal; [reflexivity|].
      simpl in Hcs; apply andb_prop in Hcs as [Hc Hcs]; simpl in Hal |- *.
      rewrite (IH _ Hcs Hal).
      apply (keeps_key_step p (set_reqs [c] x) c []); [| reflexivity | exact Hc].
      exact (worker_step_alive _ (apply_log_alive cs _ Hal)). }
    assert (Hdb : db (sys_w s) = db (apply_log mid b))
      by (unfold core in Hcore; injection Hcore as _ H2 _ _; exact H2).
    assert (Hm : matching p (db (sys_w s)) = [(text_affinity p, q)])
      by (rewrite Hdb, (Hkeep mid b Hmid Hab); exact Hmb).
    assert (Hb1 : bind_params 1 (carg cr) = BoundAll [p]) by (rewrite Har; exact (bind_params_one k p Hp)).
    rewrite (worker_step_get (sys_w s) cr rest p Ha Hr Hqr Hb1), Hm; reflexivity.
Qed.

(** ** C10: [update] does not normalize keys *)

(** C10 (code bug, at the failing input): unlike [set], [update] passes its
    keys to the REPLACE without [__serialize_key]. [update({("a",): 1})] on a
    fresh store enqueues the raw tuple as the key parameter, which [sqlite3]
    cannot bind: the statement fails on the worker, and in every state
    reached by any interleaving of the callers and the worker, with only
    that command and commands keeping the rows of the normalized key
    [["a"]] enqueued, no row of that key exists, so the point query of
    [get(("a",))] is answered with no row. [set(("a",), 1)] stores the row
    under the normalized key, and [get(("a",))] returns 1. *)
Theorem C10_update_raw_key :
  let K := PTuple [PStr "a"] in
  let cu := mkcmd (RSql ADD_ITEM) [K; PInt 1] None in
  let p := SText ("[" ++ json_quote "a" ++ "]") in
  serialize_key K = Ok (PStr ("[" ++ json_quote "a" ++ "]")) /\
  update [(K, PInt 1)] fresh_store = (Ok tt, set_conn (Some (set_reqs [cu] fresh_conn)) fresh_store) /\
  fails_on_worker cu = true /\
  (forall s, reachable fresh_conn s -> (forall c, In c (enq_log s) -> c = cu \/ keeps_key p c = true) ->
     matching p (db (sys_w s)) = [] /\
     (forall cr rest, alive (sys_w s) = true -> reqs (sys_w s) = cr :: rest ->
        creq cr = RSql GET_ITEM -> carg cr = [PStr ("[" ++ json_quote "a" ++ "]")] ->
        worker_step (sys_w s) = autocommit_commit (reply (cres cr) [] (set_reqs rest (sys_w s))))) /\
  fst (getitem K (snd (setitem K (PInt 1) fresh_store))) = Ok (PInt 1).
Proof.
  intros K cu p.
  split; [reflexivity|]; split; [vm_compute; reflexivity|]; split; [reflexivity|]; split.
  - intros s R Hall.
    assert (Hm : matching p (db (sys_w s)) = []).
    { apply (sys_invariant (fun w => matching p (db w) = []) (fun c => c = cu \/ keeps_key p c = true)
               fresh_conn); [reflexivity | | | exact R | exact Hall].
      - intros op w Hw; pose proof (caller_run_core op w) as H; unfold core in H.
        injection H as _ H _ _; rewrite H; exact Hw.
      - intros w c rest Hw Ha Hr Hc.
        assert (Hk : keeps_key p c = true) by (destruct Hc as [-> | Hc]; [reflexivity | exact Hc]).
        rewrite (keeps_key_step p w c rest Ha Hr Hk); exact Hw. }
    split; [exact Hm|].
    intros cr rest Ha Hr Hq Har.
    rewrite (worker_step_get (sys_w s) cr rest p Ha Hr Hq) by (rewrite Har; reflexivity).
    rewrite Hm; reflexivity.
  - vm_compute; reflexivity.
Qed.

(** ** Further properties of the store *)

Lemma matching_without_le k p t : List.length (matching k (without p t)) <= List.length (matching k t).
Proof.
  induction t as [|r t IH]; simpl; [lia|].
  destruct (sql_key_eq (fst r) p); simpl; destruct (sql_key_eq (fst r) k); simpl; lia.
Qed.

Lemma matching_without_equiv k p t : sql_key_eq p k = true -> matching k (without p t) = [].
Proof.
  intro Hpk; induction t as [|r t IH]; simpl; [reflexivity|].
  destruct (sql_key_eq (fst r) p) eqn:E; simpl; [exact IH|].
  destruct (sql_key_eq (fst r) k) eqn:E2; [|exact IH].
  rewrite sql_key_eq_sym in Hpk.
  pose proof (sql_key_eq_trans _ _ _ E2 Hpk); congruence.
Qed.

(** X6: every statement of the store preserves the uniqueness of the keys
    of the table (the [REPLACE] first removes the rows of an equal key). *)
Theorem exec_stmt_keys_unique st ps t :
  keys_unique t -> keys_unique (fst (exec_stmt st ps t)).
Proof.
  intros Hu k.
  destruct st; destruct ps as [|a [|b [|c ps]]]; simpl; try apply Hu.
  - rewrite matching_app; simpl; rewrite sql_key_eq_aff_l, length_app.
    destruct (sql_key_eq a k) eqn:E; simpl.
    + rewrite (matching_without_equiv k a t E); simpl; lia.
    + pose proof (matching_without_le k a t); specialize (Hu k); lia.
  - pose proof (matching_without_le k a t); specialize (Hu k); lia.
  - lia.
Qed.

Lemma autocommit_commit_autocommit s : w_autocommit (autocommit_commit s) = w_autocommit s.
Proof. unfold autocommit_commit; destruct (w_autocommit s) eqn:E; simpl; auto. Qed.

(** [set(key, v)] on an idle connection: the row is queued (no autocommit)
    or written and committed (autocommit); either way the next blocking
    call sees the table after the REPLACE. *)
Lemma setitem_effect d w key k v p q :
  conn d = Some w -> idle w -> read_only d = false ->
  serialize_key key = Ok k -> bind_param k = Bound p -> bind_param (encode d v) = Bound q ->
  exists w1 w2, setitem key v d = (Ok tt, set_conn (Some w1) d) /\
    idle w2 /\ db w2 = fst (exec_stmt ADD_ITEM [p; q] (db w)) /\ w_autocommit w2 = w_autocommit w /\
    (forall req arg, select_one req arg w1 = select_one req arg w2) /\
    (s_autocommit d = false ->
       w1 = set_reqs [mkcmd (RSql ADD_ITEM) [k; encode d v] None] w /\
       w2 = autocommit_commit (set_db (fst (exec_stmt ADD_ITEM [p; q] (db w))) (set_reqs [] w1))) /\
    (s_autocommit d = true -> w1 = w2 /\ durable w2 = db w2).
Proof.
  intros Hc Hi Hro Hk Hp Hq.
  pose proof Hi as [Ha [Hr He]].
  set (w1 := set_reqs [mkcmd (RSql ADD_ITEM) [k; encode d v] None] w).
  assert (Hset : setitem key v d = when_autocommit (set_conn (Some w1) d)).
  { unfold setitem.
    rewrite (bind_ok _ _ d k d) by (unfold lift; rewrite Hk; reflexivity).
    rewrite (bind_ok _ _ d tt d) by (unfold refuse_if_ro; rewrite Hro; reflexivity).
    rewrite (bind_ok _ _ d d d) by reflexivity.
    rewrite (bind_ok _ _ d tt (set_conn (Some w1) d)); [reflexivity|].
    rewrite (on_conn_some _ d w Hc), execute_ok by exact He; rewrite Hr; reflexivity. }
  set (w2 := autocommit_commit (set_db (fst (exec_stmt ADD_ITEM [p; q] (db w))) (set_reqs [] w1))).
  assert (Hsel : forall req arg, select_one req arg w1 = select_one req arg w2).
  { intros req arg.
    exact (select_one_after_ff w1 _ ADD_ITEM [p; q] req arg Ha He eq_refl eq_refl eq_refl
             (bind_params_pair _ _ _ _ Hp Hq)). }
  assert (Hi2 : idle w2) by (unfold w2, w1, autocommit_commit, idle; simpl;
                             destruct (w_autocommit w); simpl; auto).
  assert (Hd2 : db w2 = fst (exec_stmt ADD_ITEM [p; q] (db w)))
    by (unfold w2, autocommit_commit; simpl; destruct (w_autocommit w); reflexivity).
  assert (Ha2 : w_autocommit w2 = w_autocommit w)
    by (unfold w2; rewrite autocommit_commit_autocommit; reflexivity).
  rewrite Hset; unfold when_autocommit; simpl; destruct (s_autocommit d) eqn:Hac.
  - unfold sd_commit; simpl.
    rewrite (on_conn_some _ (set_conn (Some w1) d) w1 eq_refl).
    unfold commit; unfold bind at 1 2; rewrite Hsel.
    pose proof (select_one_commit_idle w2 Hi2) as H.
    destruct (select_one RCommit [] w2) as [r w3] eqn:E.
    destruct H as [-> [Hi3 [Hd3 [Hdu3 Ha3]]]].
    exists w3, w3; simpl; split; [reflexivity|].
    split; [exact Hi3|]; split; [rewrite Hd3; exact Hd2|]; split; [rewrite Ha3; exact Ha2|].
    split; [reflexivity|]; split; [discriminate|].
    intros _; split; [reflexivity | rewrite Hdu3, Hd3; reflexivity].
  - exists w1, w2; split; [reflexivity|].
    split; [exact Hi2|]; split; [exact Hd2|]; split; [exact Ha2|].
    split; [exact Hsel|]; split; [intros _; split; reflexivity | discriminate].
Qed.

(** Facade operations only see the connection through [select_one]. *)
Lemma getitem_conn_equiv d w1 w2 key :
  (forall req arg, select_one req arg w1 = select_one req arg w2) ->
  fst (getitem key (set_conn (Some w1) d)) = fst (getitem key (set_conn (Some w2) d)).
Proof.
  intro H; unfold getitem, bind, lift; destruct (serialize_key key); try reflexivity.
  unfold on_conn; simpl; rewrite H; reflexivity.
Qed.

Lemma contains_conn_equiv d w1 w2 key :
  (forall req arg, select_one req arg w1 = select_one req arg w2) ->
  fst (contains key (set_conn (Some w1) d)) = fst (contains key (set_conn (Some w2) d)).
Proof.
  intro H; unfold contains, bind, lift; destruct (serialize_key key); try reflexivity.
  unfold on_conn; simpl; rewrite H; reflexivity.
Qed.

Lemma len_conn_equiv d w1 w2 :
  (forall req arg, select_one req arg w1 = select_one req arg w2) ->
  fst (sd_len (set_conn (Some w1) d)) = fst (sd_len (set_conn (Some w2) d)).
Proof. intro H; unfold sd_len, bind, on_conn; simpl; rewrite H; reflexivity. Qed.

Lemma getitem_idle d w key k p :
  conn d = Some w -> idle w -> serialize_key key = Ok k -> bind_param k = Bound p ->
  fst (getitem key d) = match matching p (db w) with
                        | [] => Raise (KeyError k)
                        | r :: _ => Ok (decode d (py_of_sql (snd r)))
                        end.
Proof.
  intros Hc Hi Hk Hp.
  pose proof (select_one_idle w GET_ITEM [k] [p] Hi (bind_params_one k p Hp)) as H.
  destruct (select_one (RSql GET_ITEM) [k] w) as [r w1] eqn:E.
  destruct H as [Hr _].
  unfold getitem.
  rewrite (bind_ok _ _ d k d) by (unfold lift; rewrite Hk; reflexivity).
  unfold bind at 1; rewrite (on_conn_some _ d w Hc), E; simpl.
  rewrite Hr; simpl; destruct (matching p (db w)); reflexivity.
Qed.

Lemma len_idle d w :
  conn d = Some w -> idle w -> fst (sd_len d) = Ok (PInt (Z.of_nat (List.length (db w)))).
Proof.
  intros Hc Hi.
  pose proof (select_one_idle w GET_LEN [] [] Hi eq_refl) as H.
  destruct (select_one (RSql GET_LEN) [] w) as [r w1] eqn:E.
  destruct H as [Hr _].
  unfold sd_len, bind at 1; rewrite (on_conn_some _ d w Hc), E; simpl.
  rewrite Hr; reflexivity.
Qed.

Lemma length_matching_without p t :
  List.length t = List.length (matching p t) + List.length (without p t).
Proof.
  induction t as [|r t IH]; simpl; [reflexivity|].
  destruct (sql_key_eq (fst r) p); simpl; lia.
Qed.

Lemma sql_key_eq_null col : sql_key_eq col SNull = false.
Proof. destruct col; reflexivity. Qed.

Lemma matching_null t : matching SNull t = [].
Proof.
  induction t as [|r t IH]; [reflexivity|].
  unfold matching in *; simpl; rewrite sql_key_eq_null; exact IH.
Qed.

Lemma without_null t : without SNull t = t.
Proof.
  induction t as [|r t IH]; [reflexivity|].
  unfold without in *; simpl; rewrite sql_key_eq_null; simpl; rewrite IH; reflexivity.
Qed.

Lemma matching_single a q p : sql_key_eq a p = true -> matching p [(a, q)] = [(a, q)].
Proof. intro H; unfold matching; cbn -[sql_key_eq]; rewrite H; reflexivity. Qed.

Lemma int_text_eq z : sql_key_eq (SInt z) (SText (z_to_dec z)) = true.
Proof. unfold sql_key_eq, text_affinity; exact (String.eqb_refl _). Qed.

(** X4: [len(d)] on an idle connection returns the number of rows of the
    table and leaves the connection idle with the table unchanged. *)
Theorem len_counts_rows d w :
  conn d = Some w -> idle w ->
  exists w', sd_len d = (Ok (PInt (Z.of_nat (List.length (db w)))), set_conn (Some w') d) /\
             idle w' /\ db w' = db w.
Proof.
  intros Hc Hi.
  pose proof (select_one_idle w GET_LEN [] [] Hi eq_refl) as H.
  destruct (select_one (RSql GET_LEN) [] w) as [r w1] eqn:E.
  destruct H as [Hr [Hi1 [Hd1 _]]].
  exists w1; split; [|split; [exact Hi1 | exact Hd1]].
  unfold sd_len, bind at 1; rewrite (on_conn_some _ d w Hc), E; simpl.
  rewrite Hr; reflexivity.
Qed.

(** X5: while the keys of the table are unique, [set(k, v)] grows
    [len(d)] by one exactly when [k in d] was false, and keeps it otherwise. *)
Theorem setitem_len d w key k v p q n b :
  conn d = Some w -> idle w -> read_only d = false ->
  serialize_key key = Ok k -> bind_param k = Bound p -> bind_param (encode d v) = Bound q ->
  keys_unique (db w) ->
  fst (sd_len d) = Ok (PInt n) -> fst (contains key d) = Ok b ->
  fst (sd_len (snd (setitem key v d))) = Ok (PInt (if b then n else n + 1)).
Proof.
  intros Hc Hi Hro Hk Hp Hq Hu Hn Hb.
  rewrite (len_idle d w Hc Hi) in Hn; injection Hn as <-.
  destruct (contains_idle d w key k p Hc Hi Hk Hp) as [w' [Hc' _]].
  rewrite Hc' in Hb; simpl in Hb; injection Hb as <-.
  destruct (setitem_effect d w key k v p q Hc Hi Hro Hk Hp Hq)
    as [w1 [w2 [Hs [Hi2 [Hd2 [_ [Hsel _]]]]]]].
  rewrite Hs; simpl snd.
  rewrite (len_conn_equiv d w1 w2 Hsel), (len_idle (set_conn (Some w2) d) w2 eq_refl Hi2), Hd2; simpl.
  rewrite length_app; simpl.
  pose proof (length_matching_without p (db w)) as HL.
  specialize (Hu p).
  destruct (matching p (db w)) as [|r [|r' l]]; simpl in *; f_equal; f_equal; lia.
Qed.

(** X3: the key [None] is bound as NULL, which no point query matches and
    the primary key does not deduplicate: [set(None, v)] adds a row (the
    length grows by one) and [get(None)] still raises [KeyError]. *)
Theorem none_key_adds_row d w v q :
  conn d = Some w -> idle w -> read_only d = false -> bind_param (encode d v) = Bound q ->
  let '(r1, d1) := setitem PNone v d in
  r1 = Ok tt /\ fst (sd_len d1) = Ok (PInt (Z.of_nat (List.length (db w)) + 1)) /\
  fst (getitem PNone d1) = Raise (KeyError PNone).
Proof.
  intros Hc Hi Hro Hq.
  destruct (setitem_effect d w PNone PNone v SNull q Hc Hi Hro eq_refl eq_refl Hq)
    as [w1 [w2 [Hs [Hi2 [Hd2 [_ [Hsel _]]]]]]].
  rewrite Hs; split; [reflexivity|]; split.
  - rewrite (len_conn_equiv d w1 w2 Hsel), (len_idle (set_conn (Some w2) d) w2 eq_refl Hi2), Hd2; simpl.
    rewrite without_null, length_app; simpl; f_equal; f_equal; lia.
  - rewrite (getitem_conn_equiv d w1 w2 PNone Hsel),
      (getitem_idle (set_conn (Some w2) d) w2 PNone PNone SNull eq_refl Hi2 eq_refl eq_refl), matching_null.
    reflexivity.
Qed.

(** X2: the key column has TEXT affinity, so an int key and the string of
    its decimal digits are the same key: after [set(z, v)] for a 64-bit int
    [z], [get(str(z))] returns [v] and [str(z) in d] holds. *)
Theorem int_key_reads_as_text d w z v q :
  conn d = Some w -> idle w -> read_only d = false -> int64_ok z = true ->
  bind_param (encode d v) = Bound q -> decode d (py_of_sql q) = v ->
  let '(r1, d1) := setitem (PInt z) v d in
  r1 = Ok tt /\ fst (getitem (PStr (z_to_dec z)) d1) = Ok v /\
  fst (contains (PStr (z_to_dec z)) d1) = Ok true.
Proof.
  intros Hc Hi Hro Hz Hq Hdec.
  assert (Hp : bind_param (PInt z) = Bound (SInt z)) by (simpl; rewrite Hz; reflexivity).
  destruct (setitem_effect d w (PInt z) (PInt z) v (SInt z) q Hc Hi Hro eq_refl Hp Hq)
    as [w1 [w2 [Hs [Hi2 [Hd2 [_ [Hsel _]]]]]]].
  assert (Hm : matching (SText (z_to_dec z)) (db w2) = [(text_affinity (SInt z), q)]).
  { rewrite Hd2; simpl fst; rewrite matching_app, matching_without_equiv by apply int_text_eq.
    apply matching_single; rewrite sql_key_eq_aff_l; apply int_text_eq. }
  rewrite Hs; split; [reflexivity|]; split.
  - rewrite (getitem_conn_equiv d w1 w2 _ Hsel),
      (getitem_idle (set_conn (Some w2) d) w2 (PStr (z_to_dec z)) (PStr (z_to_dec z)) (SText (z_to_dec z)) eq_refl Hi2 eq_refl eq_refl), Hm.
    simpl; rewrite Hdec; reflexivity.
  - rewrite (contains_conn_equiv d w1 w2 _ Hsel).
    destruct (contains_idle (set_conn (Some w2) d) w2 (PStr (z_to_dec z)) _ (SText (z_to_dec z))
                eq_refl Hi2 eq_refl eq_refl) as [w3 [Hc3 _]].
    rewrite Hc3, Hm; reflexivity.
Qed.

(** X1: keys with the same normalized form are indistinguishable to the
    store: [get], [contains], [set] and [del] behave the same on both, so a
    tuple key and the string holding its JSON text address one row. *)
Theorem key_alias_equiv key1 key2 :
  serialize_key key1 = serialize_key key2 ->
  (forall d, getitem key1 d = getitem key2 d) /\
  (forall d, contains key1 d = contains key2 d) /\
  (forall v d, setitem key1 v d = setitem key2 v d) /\
  (forall d, delitem key1 d = delitem key2 d).
Proof.
  intro H; repeat split; intros;
    unfold getitem, contains, setitem, delitem, lift; rewrite H; reflexivity.
Qed.

Lemma close_idle_durable w :
  idle w -> let '(r, w') := close false w in r = Ok tt /\ alive w' = false /\ durable w' = durable w.
Proof.
  intros [Ha [Hr He]].
  destruct w as [rq ex t du ch nc al ac]; simpl in Ha, Hr, He |- *; subst rq ex al.
  unfold close, select_one, bind, new_queue, execute, check_raise_error, enqueue, wait_worker, drain; simpl.
  unfold worker_step, put, res_get; simpl; rewrite !Nat.eqb_refl; simpl; rewrite ?Nat.eqb_refl; simpl.
  unfold ret, join; simpl; split; [|split]; reflexivity.
Qed.

Lemma close_conn_equiv w1 w2 :
  (forall req arg, select_one req arg w1 = select_one req arg w2) ->
  close false w1 = close false w2.
Proof. intro H; unfold close, bind; rewrite H; reflexivity. Qed.

(** [self.conn.close(); self.conn = None] after a graceful close: the file
    keeps what was committed. *)
Lemma close_then_drop d w :
  conn d = Some w -> idle w ->
  (on_conn (close false) ;;; drop_conn) d
  = (Ok tt, mkD (flag d) (s_autocommit d) (encode d) (decode d) None (durable w)).
Proof.
  intros Hc Hi; unfold bind at 1; rewrite (on_conn_some _ d w Hc).
  pose proof (close_idle_durable w Hi) as H; destruct (close false w) as [r w3].
  destruct H as [-> [Hd Hdu]]; simpl.
    unfold drop_conn, drain; simpl; rewrite run_worker_dead by exact Hd; rewrite Hdu; reflexivity.
Qed.

Lemma sd_close_idle_file d w :
  conn d = Some w -> idle w ->
  sd_close false d
  = (Ok tt, mkD (flag d) (s_autocommit d) (encode d) (decode d) None
                (if w_autocommit w then db w else durable w)).
Proof.
  intros Hc Hi; unfold sd_close; rewrite Hc, andb_true_r.
  destruct (w_autocommit w).
  - pose proof (select_one_commit_idle w Hi) as H.
    destruct (select_one RCommit [] w) as [r w2] eqn:E; destruct H as [-> [Hi2 [_ [Hdu2 _]]]].
    rewrite (bind_ok _ _ d tt (set_conn (Some w2) d))
      by (rewrite (on_conn_some _ d w Hc); unfold commit, bind; rewrite E; reflexivity).
    rewrite (close_then_drop (set_conn (Some w2) d) w2 eq_refl Hi2), Hdu2; reflexivity.
  - unfold bind at 1; simpl; exact (close_then_drop d w Hc Hi).
Qed.

(** X9: [close()] commits only under autocommit: after [set(k, v)] and a
    graceful [close()], the file holds the written row when autocommit is
    on, and only what was committed before the [set] when it is off. *)
Theorem set_then_close d w key k v p q :
  conn d = Some w -> idle w -> read_only d = false -> w_autocommit w = s_autocommit d ->
  serialize_key key = Ok k -> bind_param k = Bound p -> bind_param (encode d v) = Bound q ->
  let '(r1, d1) := setitem key v d in
  let '(r2, d2) := sd_close false d1 in
  r1 = Ok tt /\ r2 = Ok tt /\ conn d2 = None /\
  file d2 = (if s_autocommit d then fst (exec_stmt ADD_ITEM [p; q] (db w)) else durable w).
Proof.
  intros Hc Hi Hro Hac Hk Hp Hq.
  destruct (setitem_effect d w key k v p q Hc Hi Hro Hk Hp Hq)
    as [w1 [w2 [Hs [Hi2 [Hd2 [Ha2 [Hsel [Hna Hya]]]]]]]].
  rewrite Hs.
  destruct (s_autocommit d) eqn:E.
  - destruct (Hya eq_refl) as [<- Hdu2].
    rewrite (sd_close_idle_file (set_conn (Some w1) d) w1 eq_refl Hi2), Ha2, Hac.
    repeat split; assumption.
  - destruct (Hna eq_refl) as [Hw1 Hw2].
    assert (Hcl : sd_close false (set_conn (Some w1) d)
                  = (Ok tt, mkD (flag d) (s_autocommit d) (encode d) (decode d) None (durable w))).
    { unfold sd_close; cbn [conn set_conn].
      replace (w_autocommit w1) with false by (rewrite Hw1; simpl; congruence); simpl andb.
      rewrite (bind_ok _ _ (set_conn (Some w1) d) tt (set_conn (Some w1) d) eq_refl).
      unfold bind at 1; rewrite (on_conn_some _ (set_conn (Some w1) d) w1 eq_refl).
      rewrite (close_conn_equiv w1 w2 Hsel).
      pose proof (close_idle_durable w2 Hi2) as H; destruct (close false w2) as [r w3].
      destruct H as [-> [Hd3 Hdu3]].
      unfold drop_conn, drain; simpl; rewrite run_worker_dead by exact Hd3.
      rewrite Hdu3, Hw2, Hw1; unfold autocommit_commit; simpl; rewrite Hac; reflexivity. }
    rewrite Hcl; repeat split.
Qed.

Lemma reqs_set_reqs a s : reqs (set_reqs a s) = a.
Proof. reflexivity. Qed.

Lemma set_reqs_twice a b s : set_reqs a (set_reqs b s) = set_reqs a s.
Proof. destruct s; reflexivity. Qed.

Lemma clear_idle_effect d w :
  conn d = Some w -> idle w -> read_only d = false ->
  exists w3, clear d = (Ok tt, set_conn (Some w3) d) /\ idle w3 /\ db w3 = [] /\
             durable w3 = [] /\ w_autocommit w3 = w_autocommit w.
Proof.
  intros Hc Hi Hro; unfold clear.
  rewrite (bind_ok _ _ d tt d) by (unfold refuse_if_ro; rewrite Hro; reflexivity).
  pose proof (select_one_commit_idle w Hi) as H1.
  destruct (select_one RCommit [] w) as [r1 w1] eqn:E1; destruct H1 as [-> [Hi1 [_ [_ Ha1]]]].
  rewrite (bind_ok _ _ d tt (set_conn (Some w1) d))
    by (rewrite (on_conn_some _ d w Hc); unfold commit, bind; rewrite E1; reflexivity).
  pose proof Hi1 as [Hal1 [Hr1 He1]].
  set (w1' := set_reqs [mkcmd (RSql CLEAR_ALL) [] None] w1).
  rewrite (bind_ok _ _ (set_conn (Some w1) d) tt (set_conn (Some w1') (set_conn (Some w1) d))).
  2: { rewrite (on_conn_some _ (set_conn (Some w1) d) w1 eq_refl), execute_ok by exact He1.
       rewrite Hr1; reflexivity. }
  set (w2 := autocommit_commit (set_db [] (set_reqs [] w1'))).
  assert (Hsel : forall req arg, select_one req arg w1' = select_one req arg w2)
    by (intros req arg; exact (select_one_after_ff w1' _ CLEAR_ALL [] req arg Hal1 He1 eq_refl
                                  eq_refl eq_refl eq_refl)).
  assert (Hi2 : idle w2) by (unfold w2, w1', autocommit_commit, idle; simpl;
                             destruct (w_autocommit w1); simpl; auto).
  assert (Hd2 : db w2 = []) by (unfold w2, autocommit_commit; destruct (w_autocommit _); reflexivity).
  assert (Ha2 : w_autocommit w2 = w_autocommit w1) by (unfold w2; rewrite autocommit_commit_autocommit; reflexivity).
  rewrite (on_conn_some _ (set_conn (Some w1') (set_conn (Some w1) d)) w1' eq_refl).
  unfold commit at 1 2; unfold bind at 1 2; rewrite Hsel.
  pose proof (select_one_commit_idle w2 Hi2) as H.
  destruct (select_one RCommit [] w2) as [r w3]; destruct H as [-> [Hi3 [Hd3 [Hdu3 Ha3]]]].
  exists w3; split; [reflexivity|].
  split; [exact Hi3|]; split; [congruence|]; split; [congruence|]; congruence.
Qed.

(** X7: [clear()] on a writable store with an idle connection returns
    normally; afterwards [len(d)] is 0, every key is missing, and the empty
    table is committed. *)
Theorem clear_empties d w :
  conn d = Some w -> idle w -> read_only d = false ->
  let '(r, d1) := clear d in
  r = Ok tt /\ fst (sd_len d1) = Ok (PInt 0) /\
  (forall key k p, serialize_key key = Ok k -> bind_param k = Bound p ->
     fst (getitem key d1) = Raise (KeyError k)) /\
  exists w1, conn d1 = Some w1 /\ durable w1 = [].
Proof.
  intros Hc Hi Hro.
  destruct (clear_idle_effect d w Hc Hi Hro) as [w3 [Hcl [Hi3 [Hd3 [Hdu3 _]]]]].
  rewrite Hcl; split; [reflexivity|]; split.
  - rewrite (len_idle (set_conn (Some w3) d) w3 eq_refl Hi3), Hd3; reflexivity.
  - split.
    + intros key k p Hk Hp.
      rewrite (getitem_idle (set_conn (Some w3) d) w3 key k p eq_refl Hi3 Hk Hp), Hd3; reflexivity.
    + exists w3; split; [reflexivity | exact Hdu3].
Qed.

(** X8: a read-only store refuses [set], [update] and [clear] with
    [RuntimeError] before touching the connection (for [set], after the key
    has been normalized), so the store is left as it was. *)
Theorem read_only_refuses d :
  read_only d = true ->
  (forall key k v, serialize_key key = Ok k ->
     setitem key v d = (Raise (RuntimeError "Refusing to write to read-only SqliteDict"), d)) /\
  (forall items, update items d = (Raise (RuntimeError "Refusing to update read-only SqliteDict"), d)) /\
  clear d = (Raise (RuntimeError "Refusing to clear read-only SqliteDict"), d).
Proof.
  intro Hro; split; [|split].
  - intros key k v Hk; unfold setitem.
    rewrite (bind_ok _ _ d k d) by (unfold lift; rewrite Hk; reflexivity).
    apply bind_raise; unfold refuse_if_ro; rewrite Hro; reflexivity.
  - intro items; unfold update; apply bind_raise; unfold refuse_if_ro; rewrite Hro; reflexivity.
  - unfold clear; apply bind_raise; unfold refuse_if_ro; rewrite Hro; reflexivity.
Qed.


Lemma execute_each_ok req items w :
  exc w = None ->
  execute_each req items w
  = (Ok tt, set_reqs (reqs w ++ map (fun a => mkcmd req a None) items)%list w).
Proof.
  revert w; induction items as [|a items IH]; intros w He; simpl.
  - rewrite app_nil_r; destruct w; reflexivity.
  - rewrite (bind_ok _ _ w tt _ (execute_ok w req a None He)).
    rewrite IH by exact He; simpl; rewrite set_reqs_twice, <- app_assoc; reflexivity.
Qed.

Lemma plain_key_serialize key : is_composite key = false -> serialize_key key = Ok key.
Proof. destruct key; simpl; congruence. Qed.

(** Without autocommit, [set(key, v)] only queues its [REPLACE]. *)
Lemma setitem_queue d w key k v :
  conn d = Some w -> exc w = None -> read_only d = false -> s_autocommit d = false ->
  serialize_key key = Ok k ->
  setitem key v d
  = (Ok tt, set_conn (Some (set_reqs (reqs w ++ [mkcmd (RSql ADD_ITEM) [k; encode d v] None])%list w)) d).
Proof.
  intros Hc He Hro Hac Hk; unfold setitem.
  rewrite (bind_ok _ _ d k d) by (unfold lift; rewrite Hk; reflexivity).
  rewrite (bind_ok _ _ d tt d) by (unfold refuse_if_ro; rewrite Hro; reflexivity).
  rewrite (bind_ok _ _ d d d) by reflexivity.
  rewrite (bind_ok _ _ d tt (set_conn (Some (set_reqs (reqs w ++ [mkcmd (RSql ADD_ITEM) [k; encode d v] None])%list w)) d)).
  - unfold when_autocommit; simpl; rewrite Hac; reflexivity.
  - rewrite (on_conn_some _ d w Hc), execute_ok by exact He; reflexivity.
Qed.

(** X11: without autocommit, on an idle connection, [update(items)] with keys
    that need no normalization is the same, result and state, as one [set]
    per item in order. When none of the REPLACEs fails on the worker, this
    holds whatever the worker does meanwhile: in every state reached by any
    interleaving of the callers and the worker, with only these REPLACEs
    enqueued, the check of [executemany] after the last one passes. *)
Theorem update_as_setitems d w items :
  conn d = Some w -> idle w -> read_only d = false -> s_autocommit d = false ->
  forallb (fun kv => negb (is_composite (fst kv))) items = true ->
  forallb (fun kv => negb (fails_on_worker (mkcmd (RSql ADD_ITEM) [fst kv; encode d (snd kv)] None))) items
    = true ->
  update items d = fold_right (fun kv m => setitem (fst kv) (snd kv) ;;; m) (ret tt) items d /\
  (forall s, reachable w s ->
     (forall c, In c (enq_log s) ->
        In c (map (fun kv => mkcmd (RSql ADD_ITEM) [fst kv; encode d (snd kv)] None) items)) ->
     check_raise_error (sys_w s) = (Ok tt, sys_w s)).
Proof.
  intros Hc [Hal [Hrq He]] Hro Hac Hall Hnf.
  split.
  2: { intros s R Hin; apply check_ok; apply (sys_no_fail w s He R); intros c Hcin.
       destruct (proj1 (in_map_iff _ _ _) (Hin c Hcin)) as [kv [<- Hkv]].
       rewrite forallb_forall in Hnf; apply negb_true_iff; exact (Hnf kv Hkv). }
  assert (Hr : forall items d w, conn d = Some w -> exc w = None -> read_only d = false ->
             s_autocommit d = false -> forallb (fun kv => negb (is_composite (fst kv))) items = true ->
             fold_right (fun kv m => setitem (fst kv) (snd kv) ;;; m) (ret tt) items d
             = (Ok tt, set_conn (Some (set_reqs (reqs w ++ map (fun kv => mkcmd (RSql ADD_ITEM)
                                        [fst kv; encode d (snd kv)] None) items)%list w)) d)).
  { clear. induction items as [|kv items IH]; intros d w Hc He Hro Hac Hall; simpl.
    - rewrite app_nil_r; destruct d as [f a e dc cn fi]; simpl in Hc; subst cn.
      destruct w; reflexivity.
    - simpl in Hall; apply andb_true_iff in Hall as [Hk Hall]; apply negb_true_iff in Hk.
      rewrite (bind_ok _ _ d tt _ (setitem_queue d w (fst kv) (fst kv) (snd kv) Hc He Hro Hac
                                     (plain_key_serialize _ Hk))).
      set (w' := set_reqs (reqs w ++ [mkcmd (RSql ADD_ITEM) [fst kv; encode d (snd kv)] None])%list w).
      rewrite (IH (set_conn (Some w') d) w' eq_refl He Hro Hac Hall); unfold w'.
      rewrite reqs_set_reqs, set_reqs_twice, <- app_assoc; reflexivity. }
  rewrite (Hr items d w Hc He Hro Hac Hall); unfold update.
  rewrite (bind_ok _ _ d tt d) by (unfold refuse_if_ro; rewrite Hro; reflexivity).
  rewrite (bind_ok _ _ d d d) by reflexivity.
  rewrite (bind_ok _ _ d tt (set_conn (Some (set_reqs (reqs w ++ map (fun kv => mkcmd (RSql ADD_ITEM)
                                        [fst kv; encode d (snd kv)] None) items)%list w)) d)).
  - unfold when_autocommit; simpl; rewrite Hac; reflexivity.
  - rewrite (on_conn_some _ d w Hc); unfold executemany.
    rewrite (bind_ok _ _ w tt _ (execute_each_ok _ _ w He)), check_ok by exact He.
    rewrite map_map; reflexivity.
Qed.

Lemma drain_raised s c rest st :
  alive s = true -> reqs s = c :: rest -> creq c = RSql st ->
  bind_params (stmt_arity st) (carg c) = BindRaised ->
  drain s = set_alive false (set_reqs rest s).
Proof.
  intros Ha Hr Hq Hb; unfold drain; rewrite Hr; simpl.
  unfold worker_step at 1; rewrite Ha, Hr, Hq; simpl; rewrite Hb.
  apply run_worker_dead; reflexivity.
Qed.

(** A blocking call behind a statement whose binding raises [OverflowError]
    never returns. *)
Lemma select_one_after_raised w c st req arg :
  alive w = true -> exc w = None -> reqs w = [c] -> creq c = RSql st ->
  bind_params (stmt_arity st) (carg c) = BindRaised ->
  fst (select_one req arg w) = Hang.
Proof.
  intros Ha He Hr Hq Hb; unfold select_one.
  set (s1 := mkW (reqs w) (exc w) (db w) (durable w) ((next_ch w, []) :: chans w)
                 (S (next_ch w)) (alive w) (w_autocommit w)).
  set (c2 := mkcmd req arg (Some (next_ch w))).
  set (s2 := set_reqs (reqs s1 ++ [c2])%list s1).
  rewrite (bind_ok new_queue _ w (next_ch w) s1 eq_refl).
  rewrite (bind_ok _ _ s1 tt s2 (execute_ok s1 _ _ _ He)).
  rewrite (bind_ok wait_worker _ s2 tt (drain s2) eq_refl).
  rewrite (drain_raised s2 c [c2] st Ha) by (try exact Hq; try exact Hb; unfold s2, s1; simpl; rewrite Hr; reflexivity).
  rewrite (bind_hang _ _ (set_alive false (set_reqs [c2] s2)) (set_alive false (set_reqs [c2] s2)));
    [reflexivity|].
  unfold res_get; simpl; rewrite Nat.eqb_refl; reflexivity.
Qed.

(** X12: a value whose encoded form is an int outside 64 bits kills the
    worker, [OverflowError] escaping [run]: with autocommit [set] itself
    never returns; without it [set] returns, and the next [commit()],
    [len(d)] or [get] never returns. *)
Theorem big_int_value_kills_worker d w key k v p z :
  conn d = Some w -> idle w -> read_only d = false ->
  serialize_key key = Ok k -> bind_param k = Bound p -> encode d v = PInt z -> int64_ok z = false ->
  let '(r1, d1) := setitem key v d in
  (s_autocommit d = true -> r1 = Hang) /\
  (s_autocommit d = false ->
     r1 = Ok tt /\ fst (sd_commit true d1) = Hang /\ fst (sd_len d1) = Hang /\
     forall key' k', serialize_key key' = Ok k' -> fst (getitem key' d1) = Hang).
Proof.
  intros Hc Hi Hro Hk Hp Hv Hz.
  pose proof Hi as [Ha [Hr He]].
  set (w1 := set_reqs [mkcmd (RSql ADD_ITEM) [k; encode d v] None] w).
  assert (Hb : bind_params (stmt_arity ADD_ITEM) [k; encode d v] = BindRaised)
    by (unfold bind_params; simpl; rewrite Hp, Hv; simpl; rewrite Hz; reflexivity).
  assert (HH : forall req arg, fst (select_one req arg w1) = Hang)
    by (intros req arg; exact (select_one_after_raised w1 _ ADD_ITEM req arg Ha He eq_refl eq_refl Hb)).
  assert (Hset : setitem key v d = when_autocommit (set_conn (Some w1) d)).
  { unfold setitem.
    rewrite (bind_ok _ _ d k d) by (unfold lift; rewrite Hk; reflexivity).
    rewrite (bind_ok _ _ d tt d) by (unfold refuse_if_ro; rewrite Hro; reflexivity).
    rewrite (bind_ok _ _ d d d) by reflexivity.
    rewrite (bind_ok _ _ d tt (set_conn (Some w1) d)); [reflexivity|].
    rewrite (on_conn_some _ d w Hc), execute_ok by exact He; rewrite Hr; reflexivity. }
  assert (Hcm : fst (sd_commit true (set_conn (Some w1) d)) = Hang).
  { unfold sd_commit; simpl conn; cbv iota.
    rewrite (on_conn_some _ (set_conn (Some w1) d) w1 eq_refl); simpl fst.
    unfold commit; apply bind_fst_hang, HH. }
  rewrite Hset; destruct (when_autocommit (set_conn (Some w1) d)) as [r1 d1] eqn:Es.
  destruct (s_autocommit d) eqn:Hac.
  - split; [|discriminate]; intros _.
    assert (Hw : when_autocommit (set_conn (Some w1) d) = sd_commit true (set_conn (Some w1) d))
      by (unfold when_autocommit; simpl; rewrite Hac; reflexivity).
    rewrite Hw in Es; rewrite Es in Hcm; exact Hcm.
  - split; [discriminate|]; intros _.
    unfold when_autocommit in Es; simpl in Es; rewrite Hac in Es; injection Es as <- <-.
    split; [reflexivity|]; split; [exact Hcm|]; split.
    + unfold sd_len; apply bind_fst_hang.
      rewrite (on_conn_some _ (set_conn (Some w1) d) w1 eq_refl); apply HH.
    + intros key' k' Hk'; unfold getitem.
      rewrite (bind_ok _ _ _ k' (set_conn (Some w1) d)) by (unfold lift; rewrite Hk'; reflexivity).
      apply bind_fst_hang.
      rewrite (on_conn_some _ (set_conn (Some w1) d) w1 eq_refl); apply HH.
Qed.

(** X13: on an idle connection [k in d] and [d[k]] agree: the key is
    contained exactly when [get] returns a value, and missing exactly when
    [get] raises [KeyError]. *)
Theorem contains_iff_get d w key k p :
  conn d = Some w -> idle w -> serialize_key key = Ok k -> bind_param k = Bound p ->
  (fst (contains key d) = Ok true <-> exists v, fst (getitem key d) = Ok v) /\
  (fst (contains key d) = Ok false <-> fst (getitem key d) = Raise (KeyError k)).
Proof.
  intros Hc Hi Hk Hp.
  destruct (contains_idle d w key k p Hc Hi Hk Hp) as [w1 [Hc1 _]].
  rewrite Hc1, (getitem_idle d w key k p Hc Hi Hk Hp); simpl.
  destruct (matching p (db w)) as [|r t]; split; split.
  - discriminate.
  - intros [v' Hv']; discriminate.
  - reflexivity.
  - reflexivity.
  - intros _; eexists; reflexivity.
  - reflexivity.
  - discriminate.
  - discriminate.
Qed.

Lemma keys_unique_singleton r : keys_unique [r].
Proof.
  intro k; unfold matching; simpl; destruct (sql_key_eq (fst r) k); simpl; lia.
Qed.

(** ** Witnesses *)

Lemma fresh_conn_idle : conn fresh_store = Some fresh_conn /\ idle fresh_conn.
Proof. vm_compute; repeat split. Qed.

Lemma C2_set_then_get_witness :
  let '(r1, d1) := setitem (PStr "a") (PInt 1) fresh_store in
  r1 = Ok tt /\ fst (getitem (PStr "a") d1) = Ok (PInt 1).
Proof.
  apply (C2_set_then_get fresh_store fresh_conn (PStr "a") (PStr "a") (PInt 1) (SText "a") (SInt 1));
    first [ reflexivity | exact (proj2 fresh_conn_idle) | discriminate ].
Defined.

Lemma C5_get_absent_default_witness :
  fst (mapping_get (PStr "a") PNone fresh_store) = Ok PNone /\
  fst (userdict_get (PStr "a") PNone fresh_store) = Ok PNone.
Proof.
  apply (C5_get_absent_default fresh_store fresh_conn (PStr "a") (PStr "a") (SText "a") PNone);
    first [ reflexivity | exact (proj2 fresh_conn_idle) ].
Defined.


Lemma C8_order_matters_witness :
  serialize_key (PDict [(PStr "a", PInt 1); (PStr "b", PInt 2)])
  <> serialize_key (PDict [(PStr "b", PInt 2); (PStr "a", PInt 1)]).
Proof.
  refine (proj2 (proj1 (proj2 (proj2 (proj2
            (C8_order_matters "a" "b" (PInt 1) (PInt 2) "1" "2" _ eq_refl eq_refl eq_refl eq_refl)))))).
  discriminate.
Defined.

Lemma C9_closed_store_witness :
  let '(r, d1) := sd_close false fresh_store in
  r = Ok tt /\ conn d1 = None /\
  (forall b, sd_commit b d1 = (Ok tt, d1)) /\
  (forall force, sd_close force d1 = (Ok tt, d1)) /\
  (forall key, fst (getitem key d1) =
     match serialize_key key with Ok _ => Raise AttributeError | Raise e => Raise e | Hang => Hang end) /\
  (forall key, fst (contains key d1) =
     match serialize_key key with Ok _ => Raise AttributeError | Raise e => Raise e | Hang => Hang end) /\
  (forall key v, read_only d1 = false -> fst (setitem key v d1) =
     match serialize_key key with Ok _ => Raise AttributeError | Raise e => Raise e | Hang => Hang end) /\
  enter d1 = (Ok tt, set_conn (Some (new_conn (file d1) (s_autocommit d1))) d1).
Proof.
  apply (C9_closed_store fresh_store fresh_conn); first [ reflexivity | exact (proj2 fresh_conn_idle) ].
Defined.

Lemma C7_commit_contract_witness :
  (forall w', commit true (set_reqs [mkcmd (RSql ADD_ITEM) [PStr "a"; PInt 1] None] fresh_conn) = (Ok tt, w') ->
     reqs w' = [] /\ durable w' = db w' /\ exc w' = None) /\
  commit false (set_reqs [mkcmd (RSql ADD_ITEM) [PStr "a"; PInt 1] None] fresh_conn)
    = (Ok tt, set_reqs [mkcmd (RSql ADD_ITEM) [PStr "a"; PInt 1] None; mkcmd RCommit [] None] fresh_conn).
Proof.
  apply (C7_commit_contract (set_reqs [mkcmd (RSql ADD_ITEM) [PStr "a"; PInt 1] None] fresh_conn)).
  simpl; intros c ch [<- | []] H; discriminate H.
Defined.


Lemma C1_fifo_witness :
  reachable fresh_conn (mkSys (worker_step (set_reqs [c_write; c_read] fresh_conn)) [c_write; c_read] [c_write]) /\
  worker_step (worker_step (set_reqs [c_write; c_read] fresh_conn))
  = autocommit_commit (reply (cres c_read) [[SInt 1]]
                             (set_reqs [] (worker_step (set_reqs [c_write; c_read] fresh_conn)))) /\
  nth_error [c_write; c_read] 0 = Some c_write.
Proof.
  assert (R : reachable fresh_conn (mkSys (worker_step (set_reqs [c_write; c_read] fresh_conn))
                                          [c_write; c_read] [c_write])).
  { apply (reach_step fresh_conn (mkSys (set_reqs [c_write; c_read] fresh_conn) [c_write; c_read] [])).
    - apply (reach_step fresh_conn (mkSys (set_reqs [c_write] fresh_conn) [c_write] [])).
      + apply (reach_step fresh_conn (mkSys fresh_conn [] [])).
        * apply reach_init; reflexivity.
        * exact (StepCaller (OpEnqueue c_write) (mkSys fresh_conn [] [])).
      + exact (StepCaller (OpEnqueue c_read) (mkSys (set_reqs [c_write] fresh_conn) [c_write] [])).
    - exact (StepWorker c_write [c_read] (mkSys (set_reqs [c_write; c_read] fresh_conn) [c_write; c_read] [])
               eq_refl eq_refl). }
  split; [exact R|]; split.
  - apply (proj2 (proj2 (C1_fifo fresh_conn _ R)) [] c_write [] c_read [] (PStr "a") (PInt 1) (SText "a") (SInt 1));
      first [ reflexivity | discriminate | vm_compute; reflexivity ].
  - assert (R2 : reachable fresh_conn
                   (mkSys (worker_step (worker_step (set_reqs [c_write; c_read] fresh_conn)))
                          [c_write; c_read] [c_write; c_read])).
    { apply (reach_step fresh_conn (mkSys (worker_step (set_reqs [c_write; c_read] fresh_conn))
                                          [c_write; c_read] [c_write])); [exact R|].
      exact (StepWorker c_read [] (mkSys (worker_step (set_reqs [c_write; c_read] fresh_conn))
                                         [c_write; c_read] [c_write]) eq_refl eq_refl). }
    exact (proj1 (proj2 (C1_fifo fresh_conn _ R2)) 0 1 c_write c_read ltac:(lia) eq_refl eq_refl).
Defined.

Lemma key_alias_equiv_witness :
  serialize_key (PTuple [PStr "a"]) = serialize_key (PStr ("[" ++ json_quote "a" ++ "]")) /\
  (forall d, getitem (PTuple [PStr "a"]) d = getitem (PStr ("[" ++ json_quote "a" ++ "]")) d).
Proof.
  assert (H : serialize_key (PTuple [PStr "a"]) = serialize_key (PStr ("[" ++ json_quote "a" ++ "]")))
    by reflexivity.
  split; [exact H | exact (proj1 (key_alias_equiv _ _ H))].
Defined.

Lemma int_key_reads_as_text_witness :
  let '(r1, d1) := setitem (PInt 5) (PInt 1) fresh_store in
  r1 = Ok tt /\ fst (getitem (PStr (z_to_dec 5)) d1) = Ok (PInt 1) /\
  fst (contains (PStr (z_to_dec 5)) d1) = Ok true.
Proof.
  apply (int_key_reads_as_text fresh_store fresh_conn 5 (PInt 1) (SInt 1));
    first [ reflexivity | exact (proj2 fresh_conn_idle) ].
Defined.

Lemma none_key_adds_row_witness :
  let '(r1, d1) := setitem PNone (PInt 1) store_with_a in
  r1 = Ok tt /\ fst (sd_len d1) = Ok (PInt 2) /\ fst (getitem PNone d1) = Raise (KeyError PNone).
Proof.
  apply (none_key_adds_row store_with_a (new_conn [(SText "a", SInt 1)] false) (PInt 1) (SInt 1));
    first [ reflexivity | repeat split ].
Defined.

Lemma len_counts_rows_witness :
  exists w', sd_len store_with_a = (Ok (PInt 1), set_conn (Some w') store_with_a) /\
             idle w' /\ db w' = [(SText "a", SInt 1)].
Proof.
  apply (len_counts_rows store_with_a (new_conn [(SText "a", SInt 1)] false));
    first [ reflexivity | repeat split ].
Defined.

Lemma setitem_len_witness :
  fst (sd_len (snd (setitem (PStr "a") (PInt 2) store_with_a))) = Ok (PInt 1) /\
  fst (sd_len (snd (setitem (PStr "b") (PInt 2) store_with_a))) = Ok (PInt 2).
Proof.
  split.
  - apply (setitem_len store_with_a (new_conn [(SText "a", SInt 1)] false) (PStr "a") (PStr "a")
             (PInt 2) (SText "a") (SInt 2) 1 true);
      first [ reflexivity | apply keys_unique_singleton | repeat split ].
  - apply (setitem_len store_with_a (new_conn [(SText "a", SInt 1)] false) (PStr "b") (PStr "b")
             (PInt 2) (SText "b") (SInt 2) 1 false);
      first [ reflexivity | apply keys_unique_singleton | repeat split ].
Defined.

Lemma exec_stmt_keys_unique_witness :
  keys_unique (fst (exec_stmt ADD_ITEM [SInt 7; SInt 2] [(SText "7", SInt 1)])).
Proof. apply exec_stmt_keys_unique, keys_unique_singleton. Defined.

Lemma clear_empties_witness :
  let '(r, d1) := clear store_with_a in
  r = Ok tt /\ fst (sd_len d1) = Ok (PInt 0) /\
  (forall key k p, serialize_key key = Ok k -> bind_param k = Bound p ->
     fst (getitem key d1) = Raise (KeyError k)) /\
  exists w1, conn d1 = Some w1 /\ durable w1 = [].
Proof.
  apply (clear_empties store_with_a (new_conn [(SText "a", SInt 1)] false));
    first [ reflexivity | repeat split ].
Defined.

Lemma read_only_refuses_witness :
  setitem (PStr "a") (PInt 1) ro_store
  = (Raise (RuntimeError "Refusing to write to read-only SqliteDict"), ro_store) /\
  clear ro_store = (Raise (RuntimeError "Refusing to clear read-only SqliteDict"), ro_store).
Proof.
  assert (H : read_only ro_store = true) by reflexivity.
  split; [exact (proj1 (read_only_refuses ro_store H) (PStr "a") (PStr "a") (PInt 1) eq_refl)
         | exact (proj2 (proj2 (read_only_refuses ro_store H)))].
Defined.

Lemma set_then_close_witness :
  let '(r1, d1) := setitem (PStr "b") (PInt 2) store_with_a in
  let '(r2, d2) := sd_close false d1 in
  r1 = Ok tt /\ r2 = Ok tt /\ conn d2 = None /\ file d2 = [(SText "a", SInt 1)].
Proof.
  apply (set_then_close store_with_a (new_conn [(SText "a", SInt 1)] false) (PStr "b") (PStr "b")
           (PInt 2) (SText "b") (SInt 2));
    first [ reflexivity | repeat split ].
Defined.

Lemma update_as_setitems_witness :
  update [(PStr "b", PInt 2); (PInt 3, PInt 4)] store_with_a
  = (setitem (PStr "b") (PInt 2) ;;; (setitem (PInt 3) (PInt 4) ;;; ret tt)) store_with_a.
Proof.
  refine (proj1 (update_as_setitems store_with_a (new_conn [(SText "a", SInt 1)] false) _ _ _ _ _ _ _));
    first [ reflexivity | repeat split ].
Defined.

Lemma big_int_value_kills_worker_witness :
  let '(r1, d1) := setitem (PStr "b") (PInt (2 ^ 63)%Z) store_with_a in
  (s_autocommit store_with_a = true -> r1 = Hang) /\
  (s_autocommit store_with_a = false ->
     r1 = Ok tt /\ fst (sd_commit true d1) = Hang /\ fst (sd_len d1) = Hang /\
     forall key' k', serialize_key key' = Ok k' -> fst (getitem key' d1) = Hang).
Proof.
  apply (big_int_value_kills_worker store_with_a (new_conn [(SText "a", SInt 1)] false)
           (PStr "b") (PStr "b") (PInt (2 ^ 63)%Z) (SText "b") (2 ^ 63)%Z);
    first [ reflexivity | repeat split ].
Defined.

Lemma contains_iff_get_witness :
  (fst (contains (PStr "a") store_with_a) = Ok true <-> exists v, fst (getitem (PStr "a") store_with_a) = Ok v) /\
  (fst (contains (PStr "a") store_with_a) = Ok false <->
     fst (getitem (PStr "a") store_with_a) = Raise (KeyError (PStr "a"))).
Proof.
  apply (contains_iff_get store_with_a (new_conn [(SText "a", SInt 1)] false) (PStr "a") (PStr "a") (SText "a"));
    first [ reflexivity | repeat split ].
Defined.
